(** * GlareMyAurora: response extraction, fallback and session contract

    A shallow embedding of [services/geminiService.ts]: the fenced-block
    extractor [extractJson], the forecast fetcher [fetchSpaceWeather], the
    photo advisor [analyzeSkyPhoto] and the chat session factory
    [createChatSession], together with the JavaScript built-ins they call
    ([String.prototype.match], [replace], [trim] and [JSON.parse]).

    Strings are sequences of UTF-16 code units, as in JavaScript.  Effects
    (console output, timers, the provider-side chat history, exceptions) are
    threaded explicitly through a small state-and-exception monad. *)

From Stdlib Require Import List NArith ZArith QArith Bool Ascii String Lia.
From Stdlib Require DecimalString.
Import ListNotations.

Local Open Scope N_scope.
Local Open Scope list_scope.

(** ** JavaScript strings *)

Module Str.

Definition code_unit := N.
Definition jsstring := list code_unit.

(** An ASCII literal as a JavaScript string. *)
Definition js (s : string) : jsstring :=
  map N_of_ascii (list_ascii_of_string s).

Definition LF : code_unit := 10.
Definition DQUOTE : code_unit := 34.
Definition BACKTICK : code_unit := 96.

(** [quoted s] is [s] between double quotes. *)
Definition quoted (s : string) : jsstring := DQUOTE :: js s ++ [DQUOTE].

Definition eqb (a b : jsstring) : bool :=
  if list_eq_dec N.eq_dec a b then true else false.

(** WhiteSpace and LineTerminator code units, the set removed by [trim]. *)
Definition is_trim_space (c : code_unit) : bool :=
  (9 <=? c) && (c <=? 13)
  || (c =? 32) || (c =? 160) || (c =? 5760)
  || (8192 <=? c) && (c <=? 8202)
  || (c =? 8232) || (c =? 8233) || (c =? 8239) || (c =? 8287)
  || (c =? 12288) || (c =? 65279).

Fixpoint trimStart (s : jsstring) : jsstring :=
  match s with
  | c :: s' => if is_trim_space c then trimStart s' else s
  | [] => []
  end.

Definition trimEnd (s : jsstring) : jsstring := rev (trimStart (rev s)).

(** [String.prototype.trim]. *)
Definition trim (s : jsstring) : jsstring := trimEnd (trimStart s).

(** [starts_with p s]: [p] is a prefix of [s]. *)
Fixpoint starts_with (p s : jsstring) : bool :=
  match p, s with
  | [], _ => true
  | a :: p', b :: s' => (a =? b) && starts_with p' s'
  | _ :: _, [] => false
  end.

(** [includes p s]: [p] occurs in [s] as a contiguous substring
    ([String.prototype.includes]). *)
Fixpoint includes (p s : jsstring) : bool :=
  starts_with p s ||
  match s with
  | [] => false
  | _ :: s' => includes p s'
  end.

(** The propositional reading of [includes]. *)
Definition substring (p s : jsstring) : Prop :=
  exists pre post, s = pre ++ p ++ post.

(** [split_at_first p s] cuts [s] around the leftmost occurrence of [p]:
    the text before it and the text after it. *)
Fixpoint split_at_first (p s : jsstring) : option (jsstring * jsstring) :=
  if starts_with p s then Some ([], skipn (List.length p) s)
  else
    match s with
    | [] => None
    | c :: s' =>
        match split_at_first p s' with
        | Some (a, b) => Some (c :: a, b)
        | None => None
        end
    end.

(** [ends_first p a]: in [a ++ p] the pattern [p] occurs at the very end and
    nowhere before, so a search for [p] that starts in [a] stops exactly
    after [a]. *)
Definition ends_first (p a : jsstring) : Prop :=
  split_at_first p (a ++ p) = Some (a, []).

(** No line feed is immediately followed by a backtick. *)
Fixpoint nl_backtick_free (s : jsstring) : bool :=
  match s with
  | [] => true
  | c :: s' =>
      match s' with
      | d :: _ => negb ((c =? LF) && (d =? BACKTICK)) && nl_backtick_free s'
      | [] => true
      end
  end.

End Str.
Import Str.

(** ** Regular expressions

    The three regular expressions of the service are sequences of literal
    characters around one lazy [[\s\S]*?].  The class [[\s\S]] is the union
    of a set and its complement, so it accepts every code unit.  Matching is
    by backtracking, leftmost start first, as [RegExp.prototype.exec] does
    for a pattern without the global or sticky flag. *)

Module Regex.

Inductive atom :=
| Chr (c : code_unit)          (* a literal character *)
| LazyAny (capturing : bool).  (* [\s\S]*?  or  ([\s\S]*?) *)

Definition regex := list atom.

Definition lit (s : string) : regex := map Chr (js s).

(** The shape shared by the three patterns: the literal [p], a lazy run of
    arbitrary characters, the literal [q]. *)
Definition fence (p : jsstring) (capturing : bool) (q : jsstring) : regex :=
  map Chr p ++ LazyAny capturing :: map Chr q.

(** A successful match at a fixed start: the matched text, capture group 1
    (if the pattern has one) and the text after the match. *)
Definition submatch := (jsstring * option jsstring * jsstring)%type.

Definition consume (c : code_unit) (capturing : bool) (m : submatch) : submatch :=
  let '(matched, g, rest) := m in
  (c :: matched, if capturing then option_map (cons c) g else g, rest).

Definition prepend (p : jsstring) (m : submatch) : submatch :=
  let '(matched, g, rest) := m in (p ++ matched, g, rest).

Fixpoint match_here (r : regex) (s : jsstring) {struct r} : option submatch :=
  match r with
  | [] => Some ([], None, s)
  | Chr c :: r' =>
      match s with
      | c' :: s' =>
          if c =? c' then option_map (consume c' false) (match_here r' s')
          else None
      | [] => None
      end
  | LazyAny cap :: r' =>
      (* lazy: try the continuation first, take one more character only
         when it fails *)
      (fix lazy (s : jsstring) : option submatch :=
         match match_here r' s with
         | Some (matched, g, rest) =>
             Some (matched, if cap then Some [] else g, rest)
         | None =>
             match s with
             | [] => None
             | c :: s' => option_map (consume c cap) (lazy s')
             end
         end) s
  end.

Record match_result := {
  before : jsstring;         (* input before the match; its length is [index] *)
  matched : jsstring;        (* element 0 of the match array *)
  group1 : option jsstring;  (* element 1 of the match array *)
  after : jsstring           (* input after the match *)
}.

Definition shift (c : code_unit) (m : match_result) : match_result :=
  {| before := c :: before m; matched := matched m;
     group1 := group1 m; after := after m |}.

(** Leftmost match: try every start position from the left. *)
Fixpoint exec (r : regex) (s : jsstring) : option match_result :=
  match match_here r s with
  | Some (m, g, rest) =>
      Some {| before := []; matched := m; group1 := g; after := rest |}
  | None =>
      match s with
      | [] => None
      | c :: s' => option_map (shift c) (exec r s')
      end
  end.

(** [text.match(r)] for a non-global [r]: the match array or [null]. *)
Definition String_match (text : jsstring) (r : regex) : option match_result :=
  exec r text.

(** [text.replace(r, replacement)] for a non-global [r] and a replacement
    without [$] patterns: only the first match is replaced. *)
Definition String_replace (text : jsstring) (r : regex) (replacement : jsstring)
  : jsstring :=
  match exec r text with
  | Some m => before m ++ replacement ++ after m
  | None => text
  end.

End Regex.
Import Regex.

(** ** Exceptions *)

Inductive provider_failure := NetworkError | AuthFailure | RateLimited.

Inductive exn :=
| SyntaxError                              (* thrown by [JSON.parse] *)
| TypeError                                (* a method call on [null] *)
| ProviderError (why : provider_failure).  (* a rejected provider call *)

Inductive outcome (A : Type) :=
| Ret (a : A)
| Throw (e : exn).
Arguments Ret {A} a.
Arguments Throw {A} e.

(** ** JSON values and [JSON.parse] *)

Module Json.

(** A number is the rational its decimal literal denotes; the rounding to
    the nearest double that JavaScript applies afterwards is not modelled
    (the service never computes with the numbers it decodes).  An object is
    its members in insertion order, with distinct keys. *)
#[warnings="-register-all"]
Inductive json :=
| JNull
| JBool (b : bool)
| JNum (q : Q)
| JStr (s : jsstring)
| JArr (elems : list json)
| JObj (members : list (jsstring * json)).

Inductive token :=
| TLBrace | TRBrace | TLBracket | TRBracket | TColon | TComma
| TStr (s : jsstring) | TNum (q : Q) | TTrue | TFalse | TNull.

(** *** Numbers *)

Record numacc := {
  n_neg : bool;   (* leading minus sign *)
  n_mant : N;     (* integer and fraction digits read so far *)
  n_frac : N;     (* how many of them are fraction digits *)
  n_eneg : bool;  (* sign of the exponent *)
  n_exp : N       (* exponent digits *)
}.

Definition acc0 (neg : bool) (d : N) : numacc :=
  {| n_neg := neg; n_mant := d; n_frac := 0; n_eneg := false; n_exp := 0 |}.

Definition number_value (a : numacc) : Q :=
  let m := Z.of_N (n_mant a) in
  let e := Z.of_N (n_exp a) in
  let scale := ((if n_eneg a then - e else e) - Z.of_N (n_frac a))%Z in
  Qred (Qmult (inject_Z (if n_neg a then - m else m))
              (Qpower (inject_Z 10) scale)).

Inductive numphase :=
| PSign | PZero | PInt | PDot | PFrac | PExp | PExpSign | PExpDigits.

Definition accepting (p : numphase) : bool :=
  match p with
  | PZero | PInt | PFrac | PExpDigits => true
  | _ => false
  end.

Definition is_digit (c : code_unit) : bool := (48 <=? c) && (c <=? 57).
Definition digit_val (c : code_unit) : N := c - 48.

Definition push_int (a : numacc) (c : code_unit) : numacc :=
  {| n_neg := n_neg a; n_mant := 10 * n_mant a + digit_val c;
     n_frac := n_frac a; n_eneg := n_eneg a; n_exp := n_exp a |}.

Definition push_frac (a : numacc) (c : code_unit) : numacc :=
  {| n_neg := n_neg a; n_mant := 10 * n_mant a + digit_val c;
     n_frac := n_frac a + 1; n_eneg := n_eneg a; n_exp := n_exp a |}.

Definition push_exp (a : numacc) (c : code_unit) : numacc :=
  {| n_neg := n_neg a; n_mant := n_mant a; n_frac := n_frac a;
     n_eneg := n_eneg a; n_exp := 10 * n_exp a + digit_val c |}.

Definition neg_exp (a : numacc) : numacc :=
  {| n_neg := n_neg a; n_mant := n_mant a; n_frac := n_frac a;
     n_eneg := true; n_exp := n_exp a |}.

Definition is_e (c : code_unit) : bool := (c =? 101) || (c =? 69).

(** One character inside a number: the next phase, or [None] when the
    character cannot continue the number. *)
Definition num_step (p : numphase) (a : numacc) (c : code_unit)
  : option (numphase * numacc) :=
  match p with
  | PSign =>
      if c =? 48 then Some (PZero, a)
      else if is_digit c then Some (PInt, push_int a c) else None
  | PZero =>
      if c =? 46 then Some (PDot, a)
      else if is_e c then Some (PExp, a) else None
  | PInt =>
      if is_digit c then Some (PInt, push_int a c)
      else if c =? 46 then Some (PDot, a)
      else if is_e c then Some (PExp, a) else None
  | PDot => if is_digit c then Some (PFrac, push_frac a c) else None
  | PFrac =>
      if is_digit c then Some (PFrac, push_frac a c)
      else if is_e c then Some (PExp, a) else None
  | PExp =>
      if c =? 43 then Some (PExpSign, a)
      else if c =? 45 then Some (PExpSign, neg_exp a)
      else if is_digit c then Some (PExpDigits, push_exp a c) else None
  | PExpSign => if is_digit c then Some (PExpDigits, push_exp a c) else None
  | PExpDigits => if is_digit c then Some (PExpDigits, push_exp a c) else None
  end.

(** *** The lexer, one character at a time *)

Inductive lstate :=
| LStart                                         (* between tokens *)
| LStr (acc : jsstring)                          (* inside a string; [acc] reversed *)
| LEsc (acc : jsstring)                          (* after a backslash *)
| LHex (acc : jsstring) (need : nat) (v : N)     (* inside \uXXXX *)
| LNum (p : numphase) (a : numacc)               (* inside a number *)
| LLit (remaining : jsstring) (t : token).       (* inside true, false, null *)

(** JSON white space: tab, line feed, carriage return, space. *)
Definition is_json_ws (c : code_unit) : bool :=
  (c =? 9) || (c =? 10) || (c =? 13) || (c =? 32).

Definition start_step (c : code_unit) : option (lstate * list token) :=
  if is_json_ws c then Some (LStart, [])
  else if c =? 123 then Some (LStart, [TLBrace])
  else if c =? 125 then Some (LStart, [TRBrace])
  else if c =? 91 then Some (LStart, [TLBracket])
  else if c =? 93 then Some (LStart, [TRBracket])
  else if c =? 58 then Some (LStart, [TColon])
  else if c =? 44 then Some (LStart, [TComma])
  else if c =? 34 then Some (LStr [], [])
  else if c =? 45 then Some (LNum PSign (acc0 true 0), [])
  else if c =? 48 then Some (LNum PZero (acc0 false 0), [])
  else if is_digit c then Some (LNum PInt (acc0 false (digit_val c)), [])
  else if c =? 116 then Some (LLit (js "rue") TTrue, [])
  else if c =? 102 then Some (LLit (js "alse") TFalse, [])
  else if c =? 110 then Some (LLit (js "ull") TNull, [])
  else None.

Definition hex_val (c : code_unit) : option N :=
  if is_digit c then Some (c - 48)
  else if (97 <=? c) && (c <=? 102) then Some (c - 87)
  else if (65 <=? c) && (c <=? 70) then Some (c - 55)
  else None.

Definition escape (c : code_unit) : option code_unit :=
  if c =? 34 then Some 34
  else if c =? 92 then Some 92
  else if c =? 47 then Some 47
  else if c =? 98 then Some 8
  else if c =? 102 then Some 12
  else if c =? 110 then Some 10
  else if c =? 114 then Some 13
  else if c =? 116 then Some 9
  else None.

Definition lex_step (st : lstate) (c : code_unit) : option (lstate * list token) :=
  match st with
  | LStart => start_step c
  | LStr acc =>
      if c =? 34 then Some (LStart, [TStr (rev acc)])
      else if c =? 92 then Some (LEsc acc, [])
      else if c <? 32 then None
      else Some (LStr (c :: acc), [])
  | LEsc acc =>
      if c =? 117 then Some (LHex acc 4 0, [])
      else match escape c with
           | Some d => Some (LStr (d :: acc), [])
           | None => None
           end
  | LHex acc need v =>
      match hex_val c, need with
      | Some h, S O => Some (LStr (16 * v + h :: acc), [])
      | Some h, S k => Some (LHex acc k (16 * v + h), [])
      | _, _ => None
      end
  | LNum p a =>
      match num_step p a c with
      | Some (p', a') => Some (LNum p' a', [])
      | None =>
          (* the number ends here; [c] starts whatever comes next *)
          if accepting p then
            match start_step c with
            | Some (st', out) => Some (st', TNum (number_value a) :: out)
            | None => None
            end
          else None
      end
  | LLit remaining t =>
      match remaining with
      | x :: [] => if c =? x then Some (LStart, [t]) else None
      | x :: more => if c =? x then Some (LLit more t, []) else None
      | [] => None
      end
  end.

Definition lex_finish (st : lstate) : option (list token) :=
  match st with
  | LStart => Some []
  | LNum p a => if accepting p then Some [TNum (number_value a)] else None
  | _ => None
  end.

Fixpoint lex_from (st : lstate) (s : jsstring) : option (list token) :=
  match s with
  | [] => lex_finish st
  | c :: s' =>
      match lex_step st c with
      | Some (st', out) => option_map (app out) (lex_from st' s')
      | None => None
      end
  end.

Definition lex (s : jsstring) : option (list token) := lex_from LStart s.

(** The states the lexer can reach: the tail of a literal still to be read
    is made of letters, so it holds no line feed. *)
Definition lit_ok (st : lstate) : Prop :=
  match st with
  | LLit remaining _ => ~ In LF remaining
  | _ => True
  end.

(** *** The parser, one token at a time *)

(** Property definition on an object under construction: a repeated key
    keeps its place and takes the later value. *)
Fixpoint obj_set (ms : list (jsstring * json)) (k : jsstring) (v : json)
  : list (jsstring * json) :=
  match ms with
  | [] => [(k, v)]
  | (k', v') :: ms' =>
      if Str.eqb k k' then (k', v) :: ms' else (k', v') :: obj_set ms' k v
  end.

Fixpoint obj_get (ms : list (jsstring * json)) (k : jsstring) : option json :=
  match ms with
  | [] => None
  | (k', v) :: ms' => if Str.eqb k k' then Some v else obj_get ms' k
  end.

Inductive frame :=
| FArr (elems : list json)                            (* reversed *)
| FObj (members : list (jsstring * json))             (* between members *)
| FMember (members : list (jsstring * json)) (key : jsstring).

Inductive mode :=
| MValue      (* a value must start here *)
| MArrStart   (* after an opening bracket: a value or the closing bracket *)
| MObjStart   (* after an opening brace: a key or the closing brace *)
| MKey        (* after a comma inside an object: a key *)
| MColon      (* after a key: the colon *)
| MAfter      (* after a value inside a container *)
| MDone (v : json).

Definition pstate := (mode * list frame)%type.

(** A value is complete: hand it to the enclosing container. *)
Definition value_done (v : json) (stack : list frame) : option pstate :=
  match stack with
  | [] => Some (MDone v, [])
  | FArr elems :: st => Some (MAfter, FArr (v :: elems) :: st)
  | FMember ms k :: st => Some (MAfter, FObj (obj_set ms k v) :: st)
  | FObj _ :: _ => None
  end.

Definition value_start (t : token) (stack : list frame) : option pstate :=
  match t with
  | TStr s => value_done (JStr s) stack
  | TNum q => value_done (JNum q) stack
  | TTrue => value_done (JBool true) stack
  | TFalse => value_done (JBool false) stack
  | TNull => value_done JNull stack
  | TLBracket => Some (MArrStart, FArr [] :: stack)
  | TLBrace => Some (MObjStart, FObj [] :: stack)
  | _ => None
  end.

Definition key_start (t : token) (stack : list frame) : option pstate :=
  match t, stack with
  | TStr k, FObj ms :: st => Some (MColon, FMember ms k :: st)
  | _, _ => None
  end.

Definition parse_step (ps : pstate) (t : token) : option pstate :=
  let '(m, stack) := ps in
  match m with
  | MValue => value_start t stack
  | MArrStart =>
      match t, stack with
      | TRBracket, FArr elems :: st => value_done (JArr (rev elems)) st
      | _, _ => value_start t stack
      end
  | MObjStart =>
      match t, stack with
      | TRBrace, FObj ms :: st => value_done (JObj ms) st
      | _, _ => key_start t stack
      end
  | MKey => key_start t stack
  | MColon =>
      match t with
      | TColon => Some (MValue, stack)
      | _ => None
      end
  | MAfter =>
      match t, stack with
      | TComma, FArr _ :: _ => Some (MValue, stack)
      | TRBracket, FArr elems :: st => value_done (JArr (rev elems)) st
      | TComma, FObj _ :: _ => Some (MKey, stack)
      | TRBrace, FObj ms :: st => value_done (JObj ms) st
      | _, _ => None
      end
  | MDone _ => None
  end.

Fixpoint parse_from (ps : pstate) (ts : list token) : option json :=
  match ts with
  | [] =>
      match ps with
      | (MDone v, _) => Some v
      | _ => None
      end
  | t :: ts' =>
      match parse_step ps t with
      | Some ps' => parse_from ps' ts'
      | None => None
      end
  end.

(** [JSON.parse(text)] without a reviver. *)
Definition JSON_parse (text : jsstring) : outcome json :=
  match lex text with
  | Some ts =>
      match parse_from (MValue, []) ts with
      | Some v => Ret v
      | None => Throw SyntaxError
      end
  | None => Throw SyntaxError
  end.

End Json.
Import Json.

(** ** Effects: console, timers, provider-side history, exceptions *)

Module Eff.

Inductive level := Warn | Error.

Record log_entry := {
  lvl : level;
  msg : jsstring;
  detail : option exn  (* the exception passed as second argument *)
}.

Inductive role := User | Model.

Record world := {
  console : list log_entry;            (* console.warn / console.error output *)
  waited_ms : N;                       (* total delay requested of setTimeout *)
  history : list (role * jsstring)     (* conversation held by the provider *)
}.

(** A computation reads and updates the world and either returns or throws;
    for an [async] function, returning is resolving the promise and throwing
    is rejecting it. *)
Definition M (A : Type) := world -> outcome A * world.

Definition ret {A} (a : A) : M A := fun w => (Ret a, w).
Definition throw {A} (e : exn) : M A := fun w => (Throw e, w).

Definition bind {A B} (m : M A) (k : A -> M B) : M B :=
  fun w =>
    match m w with
    | (Ret a, w') => k a w'
    | (Throw e, w') => (Throw e, w')
    end.

(** [try { m } catch (e) { h e }] *)
Definition try_catch {A} (m : M A) (h : exn -> M A) : M A :=
  fun w =>
    match m w with
    | (Ret a, w') => (Ret a, w')
    | (Throw e, w') => h e w'
    end.

(** A pure call that may throw, or an awaited promise that is already
    settled. *)
Definition lift {A} (o : outcome A) : M A := fun w => (o, w).

Definition log (l : level) (m : string) (d : option exn) : M unit :=
  fun w =>
    (Ret tt,
     {| console := console w ++ [{| lvl := l; msg := js m; detail := d |}];
        waited_ms := waited_ms w;
        history := history w |}).

Definition console_warn := log Warn.
Definition console_error := log Error.

(** [new Promise(resolve => setTimeout(() => resolve(v), ms))] is
    [sleep ms] followed by [ret v]. *)
Definition sleep (ms : N) : M unit :=
  fun w =>
    (Ret tt,
     {| console := console w;
        waited_ms := waited_ms w + ms;
        history := history w |}).

Definition record_turns (turns : list (role * jsstring)) : M unit :=
  fun w =>
    (Ret tt,
     {| console := console w;
        waited_ms := waited_ms w;
        history := history w ++ turns |}).

Definition get_history : M (list (role * jsstring)) :=
  fun w => (Ret (history w), w).

End Eff.
Import Eff.

Declare Scope eff_scope.
Delimit Scope eff_scope with eff.
Notation "x <- m ;; k" := (bind m (fun x => k))
  (at level 61, m at next level, right associativity) : eff_scope.
Notation "m ;;; k" := (bind m (fun _ => k))
  (at level 61, right associativity) : eff_scope.
Local Open Scope eff_scope.

(** ** services/geminiService.ts *)

Module Service.

(** *** The environment and the provider *)

Record Coordinates := { latitude : Q; longitude : Q }.

(** [process.env.API_KEY], and the clock reading taken when the module is
    loaded ([new Date().toISOString()] in [MOCK_WEATHER_DATA]). *)
Record env := {
  API_KEY : option jsstring;
  load_time_iso : jsstring
}.

Record GoogleGenAI := { apiKey : jsstring }.

(** What is sent to the model.  The wording of the two prompts is left
    out: it is interpolated with the arguments kept here and is only ever
    read by the provider. *)
Inductive contents :=
| WeatherPrompt (coords : Coordinates)
| PhotoPrompt (base64Image : jsstring) (deviceType : jsstring).

Record request := {
  req_model : jsstring;
  req_contents : contents;
  req_googleSearch : bool;                   (* config.tools = [{googleSearch: {}}] *)
  req_systemInstruction : option jsstring;
  req_responseMimeType : option jsstring
}.

Record web_ref := { web_uri : option jsstring; web_title : option jsstring }.
Record chunk := { web : option web_ref }.

Record GenerateContentResponse := {
  text : option jsstring;
  (* candidates?.[0]?.groundingMetadata?.groundingChunks *)
  groundingChunks : option (list chunk)
}.

(** The hosted model, a black box: what [generateContent] settles to for a
    request, and, for a live chat, what a send settles to given the
    conversation so far together with the turns the call adds to the
    conversation. *)
Record provider := {
  generateContent : GoogleGenAI -> request -> outcome GenerateContentResponse;
  chat_reply : list (role * jsstring) -> jsstring ->
               outcome jsstring * list (role * jsstring)
}.

Record GroundingSource := { uri : option jsstring; title : option jsstring }.

Record SearchResult := {
  data : json;
  rawText : jsstring;
  sources : list GroundingSource
}.

(** *** Constants *)

Definition SYSTEM_INSTRUCTION : jsstring :=
  js "You are GlareMyAurora, an expert in space weather, physics, and night photography. "
  ++ [LF] ++ js "Your goal is to provide accurate aurora forecasts and safety advice.".

(** A decimal literal: [decimal 533 2] is 5.33. *)
Definition decimal (digits : Z) (frac_digits : N) : Q :=
  Qred (Qmult (inject_Z digits) (Qpower (inject_Z 10) (- Z.of_N frac_digits))).

Definition field (k : string) (v : json) : jsstring * json := (js k, v).
Definition str (s : string) : json := JStr (js s).
Definition int (z : Z) : json := JNum (inject_Z z).

Definition MOCK_summary : jsstring :=
  [226; 353; 160; 239; 184]
  ++ js " DEMO MODE: API Key not detected. Displaying simulated storm conditions. "
  ++ [LF; LF]
  ++ js "A moderate geomagnetic storm (G2) is in progress due to a Coronal Hole High Speed Stream (CH HSS). High-latitude observers should have excellent visibility.".

Definition forecast_point (label : string) (kp : Z) : json :=
  JObj [field "time" (str label); field "kp" (int kp)].

Definition MOCK_WEATHER_DATA (e : env) : json :=
  JObj [
    field "kpIndex" (JNum (decimal 533 2));
    field "solarWindSpeed" (int 520);
    field "solarWindDensity" (JNum (decimal 125 1));
    field "bz" (JNum (decimal (-62) 1));
    field "probabilityScore" (int 78);
    field "summary" (JStr MOCK_summary);
    field "visibilityChance" (str "High");
    field "tonightsWindow" (str "22:00 - 02:00 Local");
    field "nearestDetection" (JObj [
      field "location" (JStr (js "Troms" ++ [195; 184] ++ js ", Norway"));
      field "status" (str "Visual Sighting Confirmed")]);
    field "solarFlare" (JObj [
      field "class" (str "M2.4");
      field "time" (str "14:30 UTC");
      field "impact" (str "Minor Radio Blackout (R1)");
      field "region" (str "AR3664");
      field "eta" (str "Tomorrow 08:00 UTC")]);
    field "forecast" (JArr [
      forecast_point "Now" 5;
      forecast_point "+1h" 6;
      forecast_point "+2h" 5;
      forecast_point "+3h" 4;
      forecast_point "+4h" 3;
      forecast_point "+5h" 3]);
    field "timestamp" (JStr (load_time_iso e));
    field "locationName" (str "Simulated Sector (Demo)")
  ].

Definition MOCK_PHOTO_ANALYSIS : json :=
  JObj [
    field "cloudCover" (str "Partly Cloudy (Simulated)");
    field "darknessRating" (str "Bortle 4 (Rural Transition)");
    field "recommendedSettings" (JObj [
      field "iso" (str "1600 - 3200");
      field "shutterSpeed" (str "8s - 15s");
      field "aperture" (str "f/2.8 or lower");
      field "focus" (str "Infinity (Manual)")]);
    field "checklist" (JArr [
      str "Use a tripod (Mandatory)";
      str "Set 2s timer to avoid shake";
      str "Shoot in RAW format"]);
    field "feedback" (str "Demo Mode: Great conditions simulated! Look for gaps in the clouds to the North.")
  ].

Definition MOCK_SOURCE : GroundingSource :=
  {| uri := Some (js "https://www.swpc.noaa.gov/");
     title := Some (js "NOAA Space Weather (Simulated)") |}.

Definition DEMO_CHAT_TEXT : jsstring :=
  js "I am currently in Demo Mode because the API Key is missing. I cannot process live queries, but I can confirm your systems are operational! "
  ++ [240; 376; 353; 8364].

Definition GEMINI_MODEL : jsstring := js "gemini-2.5-flash".

(** *** getAI *)

(** [!apiKey]: the key is undefined or the empty string. *)
Definition missing (k : option jsstring) : bool :=
  match k with
  | None | Some [] => true
  | Some (_ :: _) => false
  end.

(** [new GoogleGenAI({ apiKey })] *)
Definition client (e : env) : GoogleGenAI :=
  {| apiKey := match API_KEY e with Some k => k | None => [] end |}.

Definition getAI (e : env) : M (option GoogleGenAI) :=
  if missing (API_KEY e) then
    console_warn "API Key not found. Falling back to Demo Mode." None ;;;
    ret None
  else
    ret (Some (client e)).

(** *** extractJson *)

(** [/```json\n([\s\S]*?)\n```/] *)
Definition tagged_fence : regex :=
  lit "```json" ++ [Chr LF; LazyAny true; Chr LF] ++ lit "```".

(** [/```\n([\s\S]*?)\n```/] *)
Definition untagged_fence : regex :=
  lit "```" ++ [Chr LF; LazyAny true; Chr LF] ++ lit "```".

(** [a || b] on match results: [null] is falsy, a match array is truthy. *)
Definition or_else {A} (a b : option A) : option A :=
  match a with
  | Some x => Some x
  | None => b
  end.

(** [jsonMatch[1]] as the argument of [JSON.parse]: an undefined element
    would be converted to the string "undefined". *)
Definition element1 (m : match_result) : jsstring :=
  match group1 m with
  | Some c => c
  | None => js "undefined"
  end.

(** [text.match(tagged) || text.match(untagged)] *)
Definition jsonMatch (text : jsstring) : option match_result :=
  or_else (String_match text tagged_fence) (String_match text untagged_fence).

Definition extractJson (text : jsstring) : M json :=
  match jsonMatch text with
  | Some m =>
      try_catch
        (lift (JSON_parse (element1 m)))
        (fun e =>
           console_warn "Failed to parse extracted JSON" (Some e) ;;;
           ret JNull)
  | None => ret JNull
  end.

(** *** fetchSpaceWeather *)

(** [/```json[\s\S]*?```/] *)
Definition strip_fence : regex :=
  lit "```json" ++ [LazyAny false] ++ lit "```".

(** [response.text || ""] *)
Definition text_or_empty (t : option jsstring) : jsstring :=
  match t with
  | Some s => s
  | None => []
  end.

(** [sources.map(c => c.web).filter(w => w !== undefined).map(...)] *)
Fixpoint mapSources (chunks : list chunk) : list GroundingSource :=
  match chunks with
  | [] => []
  | c :: cs =>
      match web c with
      | Some w => {| uri := web_uri w; title := web_title w |} :: mapSources cs
      | None => mapSources cs
      end
  end.

Definition narrative (text : jsstring) : jsstring :=
  trim (String_replace text strip_fence []).

Definition weather_request (coords : Coordinates) : request :=
  {| req_model := GEMINI_MODEL;
     req_contents := WeatherPrompt coords;
     req_googleSearch := true;
     req_systemInstruction := Some SYSTEM_INSTRUCTION;
     req_responseMimeType := None |}.

Definition fetchSpaceWeather (e : env) (p : provider) (coords : Coordinates)
  : M SearchResult :=
  ai <- getAI e ;;
  match ai with
  | None =>
      (* FALLBACK: mock data after a fake delay *)
      sleep 1500 ;;;
      ret {| data := MOCK_WEATHER_DATA e;
             rawText := MOCK_summary;
             sources := [MOCK_SOURCE] |}
  | Some ai =>
      try_catch
        (response <- lift (generateContent p ai (weather_request coords)) ;;
         let text := text_or_empty (text response) in
         let sources :=
           match groundingChunks response with
           | Some cs => cs
           | None => []
           end in
         let mappedSources := mapSources sources in
         jsonData <- extractJson text ;;
         ret {| data := jsonData;
                rawText := narrative text;
                sources := mappedSources |})
        (fun error =>
           console_error "Error fetching space weather:" (Some error) ;;;
           throw error)
  end.

(** *** analyzeSkyPhoto *)

Definition photo_request (base64Image deviceType : jsstring) : request :=
  {| req_model := GEMINI_MODEL;
     req_contents := PhotoPrompt base64Image deviceType;
     req_googleSearch := false;
     req_systemInstruction := None;
     req_responseMimeType := Some (js "application/json") |}.

Definition analyzeSkyPhoto (e : env) (p : provider)
  (base64Image deviceType : jsstring) : M json :=
  ai <- getAI e ;;
  match ai with
  | None =>
      sleep 2000 ;;;
      ret MOCK_PHOTO_ANALYSIS
  | Some ai =>
      try_catch
        (response <- lift (generateContent p ai (photo_request base64Image deviceType)) ;;
         let text := text_or_empty (text response) in
         (* pure JSON when the provider honours responseMimeType *)
         try_catch
           (lift (JSON_parse text))
           (fun _ => extractJson text))
        (fun error =>
           console_error "Error analyzing photo:" (Some error) ;;;
           ret JNull)
  end.

(** *** createChatSession *)

Inductive chat_session :=
| DemoChat                                   (* the mock object *)
| LiveChat (ai : GoogleGenAI) (model systemInstruction : jsstring).

Definition CHAT_DIRECTIVE : jsstring :=
  js " You are helpful, concise, and safety-conscious. Warn users about cold exposure and dark terrain.".

Definition createChatSession (e : env) : M chat_session :=
  ai <- getAI e ;;
  match ai with
  | None => ret DemoChat
  | Some ai => ret (LiveChat ai GEMINI_MODEL (SYSTEM_INSTRUCTION ++ CHAT_DIRECTIVE))
  end.

Record reply := { reply_text : jsstring }.

(** Modelled from the spec: the send operation of a live session belongs to
    the provider's client library, which is not part of the repository.
    It returns the next turn's text, and each call appends to the
    conversation the provider keeps for the handle; what a call appends,
    also when it fails, is the provider's to decide. *)
Definition live_sendMessage (p : provider) (message : jsstring) : M reply :=
  h <- get_history ;;
  let '(settled, appended) := chat_reply p h message in
  record_turns appended ;;;
  answer <- lift settled ;;
  ret {| reply_text := answer |}.

(** [session.sendMessage({ message })] *)
Definition sendMessage (p : provider) (s : chat_session) (message : jsstring)
  : M reply :=
  match s with
  | DemoChat => ret {| reply_text := DEMO_CHAT_TEXT |}
  | LiveChat _ _ _ => live_sendMessage p message
  end.

(** *** Vocabulary of the specification *)

(** The delimiters of a fenced block. *)
Definition tagged_open : jsstring := js "```json" ++ [LF].
Definition untagged_open : jsstring := js "```" ++ [LF].
Definition fence_close : jsstring := LF :: js "```".

Definition tagged_block (content : jsstring) : jsstring :=
  tagged_open ++ content ++ fence_close.

Definition untagged_block (content : jsstring) : jsstring :=
  untagged_open ++ content ++ fence_close.

(** A fenced block the extractor would recognise, tagged or untagged. *)
Definition is_fenced_block (b : jsstring) : Prop :=
  exists content, b = tagged_block content \/ b = untagged_block content.

Definition no_fenced_block (text : jsstring) : Prop :=
  forall b, is_fenced_block b -> ~ substring b text.

(** Every fenced block of the text, if any, has content that [JSON.parse]
    rejects. *)
Definition no_valid_block (text : jsstring) : Prop :=
  forall content,
    substring (tagged_block content) text
    \/ substring (untagged_block content) text ->
    exists e, JSON_parse content = Throw e.

(** Property access [v.k] on a decoded value. *)
Definition get (k : string) (v : json) : option json :=
  match v with
  | JObj ms => obj_get ms (js k)
  | _ => None
  end.

(** Decoding the content of a block: the parsed value, or [null] and a
    warning on the console. *)
Definition decode_block (content : jsstring) : M json :=
  try_catch
    (lift (JSON_parse content))
    (fun e =>
       console_warn "Failed to parse extracted JSON" (Some e) ;;;
       ret JNull).

(** The WeatherReport JSON shape as the specification lists it:
    [{kpIndex, solarWindSpeed, solarWindDensity, bz, probabilityScore,
      visibilityChance, tonightsWindow, nearestDetection:{location,status},
      solarFlare:{class,time,impact,region?,eta?}, locationName,
      forecast:[{time,kp} x 6]}], with the field types of [WeatherData]. *)
Definition is_number (v : json) : bool :=
  match v with JNum _ => true | _ => false end.

Definition is_string (v : json) : bool :=
  match v with JStr _ => true | _ => false end.

Definition has (k : string) (ok : json -> bool) (ms : list (jsstring * json)) : bool :=
  match obj_get ms (js k) with
  | Some v => ok v
  | None => false
  end.

Definition optional (k : string) (ok : json -> bool) (ms : list (jsstring * json)) : bool :=
  match obj_get ms (js k) with
  | Some v => ok v
  | None => true
  end.

Definition is_record (fields : list (jsstring * json) -> bool) (v : json) : bool :=
  match v with JObj ms => fields ms | _ => false end.

Definition forecast_entry : json -> bool :=
  is_record (fun ms => has "time" is_string ms && has "kp" is_number ms).

Definition forecast_series (v : json) : bool :=
  match v with
  | JArr pts => Nat.eqb (List.length pts) 6 && forallb forecast_entry pts
  | _ => false
  end.

Definition conforms_WeatherReport : json -> bool :=
  is_record (fun ms =>
    has "kpIndex" is_number ms
    && has "solarWindSpeed" is_number ms
    && has "solarWindDensity" is_number ms
    && has "bz" is_number ms
    && has "probabilityScore" is_number ms
    && has "visibilityChance" is_string ms
    && has "tonightsWindow" is_string ms
    && has "nearestDetection" (is_record (fun d =>
         has "location" is_string d && has "status" is_string d)) ms
    && has "solarFlare" (is_record (fun f =>
         has "class" is_string f && has "time" is_string f
         && has "impact" is_string f
         && optional "region" is_string f && optional "eta" is_string f)) ms
    && has "locationName" is_string ms
    && has "forecast" forecast_series ms).

(** The constraints the data model of the specification adds to the shape:
    a probability score that is an integer from 0 to 100, a visibility
    chance among Low, Moderate, High and Extreme, and forecast points
    labelled Now, +1h, ..., +5h in this order. *)
Definition is_score (v : json) : bool :=
  match v with
  | JNum q => Qle_bool 0 q && Qle_bool q 100 && Pos.eqb (Qden q) 1
  | _ => false
  end.

Definition is_chance (v : json) : bool :=
  match v with
  | JStr s => existsb (Str.eqb s) [js "Low"; js "Moderate"; js "High"; js "Extreme"]
  | _ => false
  end.

Definition point_label (pt : json) : jsstring :=
  match get "time" pt with
  | Some (JStr s) => s
  | _ => []
  end.

Definition has_labels (v : json) : bool :=
  match v with
  | JArr pts =>
      if list_eq_dec (list_eq_dec N.eq_dec) (map point_label pts)
           (map js ["Now"; "+1h"; "+2h"; "+3h"; "+4h"; "+5h"]%string)
      then true else false
  | _ => false
  end.

Definition schema_valid (v : json) : bool :=
  conforms_WeatherReport v
  && match get "probabilityScore" v with Some s => is_score s | None => false end
  && match get "visibilityChance" v with Some c => is_chance c | None => false end
  && match get "forecast" v with Some f => has_labels f | None => false end.

(** The console after the extractor's warning. *)
Definition warned (w : world) (e : exn) : world :=
  {| console := console w ++
       [{| lvl := Warn; msg := js "Failed to parse extracted JSON";
           detail := Some e |}];
     waited_ms := waited_ms w;
     history := history w |}.

(** The world after [console.error(m, e)]. *)
Definition errored (w : world) (m : string) (e : exn) : world :=
  {| console := console w ++ [{| lvl := Error; msg := js m; detail := Some e |}];
     waited_ms := waited_ms w;
     history := history w |}.

(** A pristine world, for worked examples. *)
Definition w0 : world := {| console := []; waited_ms := 0; history := [] |}.

End Service.
Import Service.

(** * Scenarios

    Concrete inputs for the worked examples below. *)

Module Scenario.

(** No credential configured. *)
Definition demo_env : env :=
  {| API_KEY := None; load_time_iso := js "2025-01-01T00:00:00.000Z" |}.

Definition live_env : env :=
  {| API_KEY := Some (js "k"); load_time_iso := js "2025-01-01T00:00:00.000Z" |}.

(** A provider that answers every request with the same reply text and no
    grounding metadata, and every chat message with "ok", adding both turns
    to the conversation. *)
Definition replying (reply : jsstring) : provider :=
  {| generateContent := fun _ _ =>
       Ret {| text := Some reply; groundingChunks := None |};
     chat_reply := fun _ message =>
       (Ret (js "ok"), [(User, message); (Model, js "ok")]) |}.

(** A provider whose every call is rejected. *)
Definition failing (why : provider_failure) : provider :=
  {| generateContent := fun _ _ => Throw (ProviderError why);
     chat_reply := fun _ _ => (Throw (ProviderError why), []) |}.

Definition reykjavik : Coordinates :=
  {| latitude := decimal 641265 4; longitude := decimal (-218174) 4 |}.

(** The example of the specification:
    [Report:\n```json\n{"kpIndex":5,"forecast":[]}\n```] *)
Definition report_content : jsstring :=
  js "{" ++ quoted "kpIndex" ++ js ":5," ++ quoted "forecast" ++ js ":[]}".

Definition report_text : jsstring :=
  (js "Report:" ++ [LF]) ++ tagged_block report_content ++ [].

Definition report_value : json :=
  JObj [field "kpIndex" (int 5); field "forecast" (JArr [])].

(** An unparsable tagged block followed by a valid one. *)
Definition late_block_text : jsstring :=
  tagged_block (js "oops") ++ [LF] ++ tagged_block (js "{}").

(** A valid tagged block followed by an unparsable one. *)
Definition early_block_text : jsstring :=
  tagged_block (js "1") ++ [LF] ++ tagged_block (js "oops").

(** Two valid tagged blocks. *)
Definition two_blocks_text : jsstring :=
  [] ++ tagged_block (js "1") ++ [LF] ++ tagged_block (js "2") ++ [].

(** A tagged block and a trailing untagged block. *)
Definition mixed_text : jsstring :=
  js "Log" ++ tagged_block (js "1") ++ [LF] ++ untagged_block (js "2") ++ [].

(** A reply whose only block is untagged. *)
Definition untagged_text : jsstring :=
  js "Log" ++ [LF] ++ untagged_block (js "7").

(** A reply whose block holds valid JSON of another shape. *)
Definition scalar_text : jsstring := tagged_block (js "42").

Definition plain_text : jsstring := js "Clear skies, no data tonight.".

(** A tagged block after narrative that quotes a value in backticks. *)
Definition quoting_text : jsstring :=
  (js "Kp `5` now:" ++ [LF]) ++ tagged_block report_content ++ [LF].

Definition quoting_reply : GenerateContentResponse :=
  {| text := Some quoting_text; groundingChunks := None |}.

(** A reply that is valid JSON as a whole, of another shape than a
    PhotoAnalysis, and one whose tagged block holds an empty object. *)
Definition scalar_reply_text : jsstring := js "42".

Definition empty_object_text : jsstring := tagged_block (js "{}").

End Scenario.

(** * The components that call the service

    [App.tsx], [components/ChatGuardian.tsx], [components/PhotoGuide.tsx]
    and [components/Dashboard.tsx]: the event handlers that call the service
    and the decisions taken on what it returns.  Markup and styling are not
    modelled. *)

(** ** Component state with effects *)

Module UI.

(** A handler reads and updates the state of its component (the [useState]
    cells) besides the world; the state survives an exception. *)
Definition C (S A : Type) := S -> world -> outcome A * S * world.

Definition ret {S A} (a : A) : C S A := fun s w => (Ret a, s, w).

Definition bind {S A B} (m : C S A) (k : A -> C S B) : C S B :=
  fun s w =>
    match m s w with
    | (Ret a, s', w') => k a s' w'
    | (Throw e, s', w') => (Throw e, s', w')
    end.

Definition throw {S A} (e : exn) : C S A := fun s w => (Throw e, s, w).

(** A state setter. *)
Definition set {S} (f : S -> S) : C S unit := fun s w => (Ret tt, f s, w).

(** An awaited call into the service. *)
Definition call {S A} (m : M A) : C S A :=
  fun s w => let '(o, w') := m w in (o, s, w').

(** [try { m } catch (e) { h e }] *)
Definition try_catch {S A} (m : C S A) (h : exn -> C S A) : C S A :=
  fun s w =>
    match m s w with
    | (Ret a, s', w') => (Ret a, s', w')
    | (Throw e, s', w') => h e s' w'
    end.

(** [try { m } finally { fin }]: [fin] runs on both exits; an exception of
    [m] is thrown again after it. *)
Definition try_finally {S A} (m : C S A) (fin : C S unit) : C S A :=
  fun s w =>
    match m s w with
    | (o, s', w') =>
        match fin s' w' with
        | (Ret _, s'', w'') => (o, s'', w'')
        | (Throw e, s'', w'') => (Throw e, s'', w'')
        end
    end.

End UI.

Declare Scope ui_scope.
Delimit Scope ui_scope with ui.
Notation "x <- m ;; k" := (UI.bind m (fun x => k))
  (at level 61, m at next level, right associativity) : ui_scope.
Notation "m ;;; k" := (UI.bind m (fun _ => k))
  (at level 61, right associativity) : ui_scope.

(** JavaScript truthiness of a decoded value and of a string. *)
Definition truthy (v : json) : bool :=
  match v with
  | JNull => false
  | JBool b => b
  | JNum q => negb (Qeq_bool q 0)
  | JStr s => match s with [] => false | _ :: _ => true end
  | JArr _ | JObj _ => true
  end.

Definition nonempty (s : jsstring) : bool :=
  match s with [] => false | _ :: _ => true end.

(** ** App.tsx *)

Module App.

Inductive AppView := DASHBOARD | PHOTO_GUIDE | CHAT.
Inductive units := metric | imperial.

Record state := {
  currentView : AppView;
  location : option Coordinates;
  weatherData : json;                 (* [WeatherData | null] *)
  rawText : jsstring;
  sources : list GroundingSource;
  loading : bool;
  locationError : option jsstring;
  unitSystem : units
}.

(** The initial [useState] values. *)
Definition initial : state :=
  {| currentView := DASHBOARD; location := None; weatherData := JNull;
     rawText := []; sources := []; loading := false; locationError := None;
     unitSystem := metric |}.

Definition setLocation (c : Coordinates) (s : state) : state :=
  {| currentView := currentView s; location := Some c;
     weatherData := weatherData s; rawText := rawText s; sources := sources s;
     loading := loading s; locationError := locationError s;
     unitSystem := unitSystem s |}.

Definition setWeatherData (v : json) (s : state) : state :=
  {| currentView := currentView s; location := location s;
     weatherData := v; rawText := rawText s; sources := sources s;
     loading := loading s; locationError := locationError s;
     unitSystem := unitSystem s |}.

Definition setRawText (t : jsstring) (s : state) : state :=
  {| currentView := currentView s; location := location s;
     weatherData := weatherData s; rawText := t; sources := sources s;
     loading := loading s; locationError := locationError s;
     unitSystem := unitSystem s |}.

Definition setSources (l : list GroundingSource) (s : state) : state :=
  {| currentView := currentView s; location := location s;
     weatherData := weatherData s; rawText := rawText s; sources := l;
     loading := loading s; locationError := locationError s;
     unitSystem := unitSystem s |}.

Definition setLoading (b : bool) (s : state) : state :=
  {| currentView := currentView s; location := location s;
     weatherData := weatherData s; rawText := rawText s; sources := sources s;
     loading := b; locationError := locationError s;
     unitSystem := unitSystem s |}.

Definition setLocationError (m : jsstring) (s : state) : state :=
  {| currentView := currentView s; location := location s;
     weatherData := weatherData s; rawText := rawText s; sources := sources s;
     loading := loading s; locationError := Some m;
     unitSystem := unitSystem s |}.

Definition UNABLE_TO_FETCH : jsstring :=
  js "Unable to fetch space weather data at this moment.".

Local Open Scope ui_scope.

Definition loadWeatherData (e : env) (p : provider) (coords : Coordinates)
  : UI.C state unit :=
  UI.set (setLoading true) ;;;
  UI.try_finally
    (UI.try_catch
       (result <- UI.call (fetchSpaceWeather e p coords) ;;
        UI.set (setWeatherData (Service.data result)) ;;;
        UI.set (setRawText (Service.rawText result)) ;;;
        UI.set (setSources (Service.sources result)))
       (fun error =>
          UI.call (console_error "Failed to load weather data" (Some error)) ;;;
          UI.set (setRawText UNABLE_TO_FETCH)))
    (UI.set (setLoading false)).

(** [if (location) loadWeatherData(location)] *)
Definition handleRefresh (e : env) (p : provider) : UI.C state unit :=
  fun s =>
    match location s with
    | Some c => loadWeatherData e p c s
    | None => UI.ret tt s
    end.

(** What [navigator.geolocation] does when the component mounts. *)
Inductive geolocation :=
| GeoFix (latitude longitude : Q)   (* the success callback *)
| GeoDenied                         (* the error callback *)
| GeoUnsupported.                   (* no [geolocation] in [navigator] *)

Definition defaultCoords : Coordinates :=
  {| latitude := decimal 641265 4; longitude := decimal (-218174) 4 |}.

(** The initial location fetch ([useEffect] with no dependencies). *)
Definition mount (e : env) (p : provider) (g : geolocation) : UI.C state unit :=
  match g with
  | GeoFix lat lon =>
      let coords := {| latitude := lat; longitude := lon |} in
      UI.set (setLocation coords) ;;;
      loadWeatherData e p coords
  | GeoDenied =>
      UI.set (setLocationError (js "Location access denied. Using default (Reykjavik).")) ;;;
      UI.set (setLocation defaultCoords) ;;;
      loadWeatherData e p defaultCoords
  | GeoUnsupported =>
      UI.set (setLocationError (js "Geolocation not supported."))
  end.

End App.

(** ** components/Dashboard.tsx *)

Module Dashboard.

(** Which of its four renderings the dashboard returns. *)
Inductive view :=
| Scanning                       (* the spinner *)
| ReportOnly (text : jsstring)   (* the narrative alone, with a retry button *)
| Blank                          (* [null] *)
| Full (weather : json) (log : jsstring) (sources : list GroundingSource).

Definition render (weather : json) (loading : bool) (rawText : jsstring)
  (sources : list GroundingSource) : view :=
  if loading then Scanning
  else if negb (truthy weather) && nonempty rawText then ReportOnly rawText
  else if negb (truthy weather) then Blank
  else Full weather rawText sources.

(** The dashboard as [App] renders it. *)
Definition of_app (s : App.state) : view :=
  render (App.weatherData s) (App.loading s) (App.rawText s) (App.sources s).

(** Property access that yields [undefined] ([None]) on anything but an
    object that has the property; the names read below are no properties
    of strings, arrays, numbers or booleans. *)
Definition prop (k : string) (v : option json) : option json :=
  match v with
  | Some (JObj ms) => obj_get ms (js k)
  | _ => None
  end.

Definition truthy_opt (v : option json) : bool :=
  match v with
  | Some x => truthy x
  | None => false
  end.

(** [x !== 'None'] *)
Definition is_not_None (v : option json) : bool :=
  match v with
  | Some (JStr s) => negb (Str.eqb s (js "None"))
  | _ => true
  end.

(** [weather.solarFlare && weather.solarFlare.class !== 'None'], as a
    condition. *)
Definition isSignificantFlare (weather : json) : bool :=
  let solarFlare := prop "solarFlare" (Some weather) in
  truthy_opt solarFlare && is_not_None (prop "class" solarFlare).

(** [weather?.solarFlare?.class && weather.solarFlare.class !== 'None'] of
    the space-weather map, as a condition. *)
Definition isFlare (weather : json) : bool :=
  let class := prop "class" (prop "solarFlare" (Some weather)) in
  truthy_opt class && is_not_None class.

Inductive ring_color := Teal | Purple | Red.

(** [ProbabilityRing]: the colour of the ring for a score. *)
Definition ringColor (score : Q) : ring_color :=
  let color := Teal in
  let color := if negb (Qle_bool score 60) then Purple else color in
  let color := if negb (Qle_bool score 80) then Red else color in
  color.

(** The aurora colour of the space-weather map for a Kp index. *)
Inductive aurora_color := Green | Violet | Crimson.

Definition auroraColor (kp : Q) : aurora_color :=
  let auroraColor := Green in
  let auroraColor := if Qle_bool 5 kp then Violet else auroraColor in
  let auroraColor := if Qle_bool 7 kp then Crimson else auroraColor in
  auroraColor.

(** [s.title || 'Data Stream'] *)
Definition sourceLabel (s : GroundingSource) : jsstring :=
  match title s with
  | Some (_ :: _ as t) => t
  | _ => js "Data Stream"
  end.

End Dashboard.

(** ** components/ChatGuardian.tsx *)

Module ChatGuardian.

(** [n.toString()] for a clock reading, a non-negative integer. *)
Definition Number_toString (n : N) : jsstring :=
  js (DecimalString.NilZero.string_of_uint (N.to_uint n)).

Record ChatMessage := {
  id : jsstring;
  role : Eff.role;
  text : jsstring;
  timestamp : N
}.

Record state := {
  session : chat_session;      (* [chatSessionRef.current], set on mount *)
  messages : list ChatMessage;
  input : jsstring;
  loading : bool
}.

Definition GREETING : jsstring :=
  js "Greetings, Earthling! " ++ [55357; 56726]
  ++ js " I am GlareMyAurora. Ask me about solar storms, survival gear, or the science of the lights!".

Definition COMM_LINK_DISRUPTED : jsstring :=
  js "Comm link disrupted! Static in the atmosphere... try again.".

(** The first render and the effect that creates the session; [now] is the
    reading of [Date.now()] for the greeting. *)
Definition mount (e : env) (now : N) : M state :=
  (s <- createChatSession e ;;
   Eff.ret {| session := s;
              messages := [{| id := js "1"; role := Model; text := GREETING;
                              timestamp := now |}];
              input := [];
              loading := false |})%eff.

Definition pushMessage (m : ChatMessage) (s : state) : state :=
  {| session := session s; messages := messages s ++ [m];
     input := input s; loading := loading s |}.

Definition setInput (t : jsstring) (s : state) : state :=
  {| session := session s; messages := messages s;
     input := t; loading := loading s |}.

Definition setLoading (b : bool) (s : state) : state :=
  {| session := session s; messages := messages s;
     input := input s; loading := b |}.

(** The four readings of [Date.now()] taken while one message is handled. *)
Record readings := {
  user_id_ms : N; user_ts : N;
  reply_id_ms : N; reply_ts : N
}.

Local Open Scope ui_scope.

Definition handleSend (p : provider) (t : readings) : UI.C state unit :=
  fun s =>
    (if negb (nonempty (trim (input s))) || loading s then UI.ret tt
     else
       let userMsg :=
         {| id := Number_toString (user_id_ms t); role := User;
            text := input s; timestamp := user_ts t |} in
       UI.set (pushMessage userMsg) ;;;
       UI.set (setInput []) ;;;
       UI.set (setLoading true) ;;;
       UI.try_finally
         (UI.try_catch
            (result <- UI.call (sendMessage p (session s) (text userMsg)) ;;
             UI.set (pushMessage
                       {| id := Number_toString (reply_id_ms t + 1);
                          role := Model;
                          text := reply_text result;
                          timestamp := reply_ts t |}))
            (fun error =>
               (* console.error(error) *)
               UI.call (console_error "" (Some error)) ;;;
               UI.set (pushMessage
                         {| id := Number_toString (reply_id_ms t + 1);
                            role := Model;
                            text := COMM_LINK_DISRUPTED;
                            timestamp := reply_ts t |})))
         (UI.set (setLoading false))) s.

End ChatGuardian.

(** ** components/PhotoGuide.tsx *)

Module PhotoGuide.

(** The pattern [/^data:image\/[a-z]+;base64,/]: literals around one greedy
    [[a-z]+], tried at the start of the input only. *)
Inductive atom :=
| Lit (c : code_unit)
| LowerPlus.

Definition is_lower (c : code_unit) : bool := (97 <=? c) && (c <=? 122).

(** The greedy run after its first letter: take one more letter if that
    leads to a match, otherwise go on with the rest of the pattern [k]. *)
Fixpoint more_letters (k : jsstring -> option jsstring) (s : jsstring)
  : option jsstring :=
  match
    match s with
    | d :: s' => if is_lower d then more_letters k s' else None
    | [] => None
    end
  with
  | Some rest => Some rest
  | None => k s
  end.

(** A match at the start of [s]: the text after it. *)
Fixpoint match_start (r : list atom) (s : jsstring) {struct r} : option jsstring :=
  match r with
  | [] => Some s
  | Lit c :: r' =>
      match s with
      | c' :: s' => if c =? c' then match_start r' s' else None
      | [] => None
      end
  | LowerPlus :: r' =>
      match s with
      | c :: s' => if is_lower c then more_letters (match_start r') s' else None
      | [] => None
      end
  end.

Definition DATA_URL_PREFIX : list atom :=
  map Lit (js "data:image/") ++ LowerPlus :: map Lit (js ";base64,").

(** [result.replace(/^data:image\/[a-z]+;base64,/, "")] *)
Definition stripDataUrl (result : jsstring) : jsstring :=
  match match_start DATA_URL_PREFIX result with
  | Some rest => rest
  | None => result
  end.

Record state := {
  device : jsstring;
  analysis : json;     (* [PhotoAnalysis | null] *)
  loading : bool
}.

Definition initial : state :=
  {| device := js "Smartphone"; analysis := JNull; loading := false |}.

Definition setAnalysis (v : json) (s : state) : state :=
  {| device := device s; analysis := v; loading := loading s |}.

Definition setLoading (b : bool) (s : state) : state :=
  {| device := device s; analysis := analysis s; loading := b |}.

Local Open Scope ui_scope.

(** What the change event and the file reader deliver: no file at all, or
    a file whose read ended with the data URL in [reader.result], or a file
    whose read failed, with [reader.result] null. *)
Inductive chosen :=
| NoFile
| Loaded (result : jsstring)
| ReadError.

(** [reader.result.replace(/^data:image\/[a-z]+;base64,/, "")]: the call
    throws when the result is null. *)
Definition base64_of (result : option jsstring) : UI.C state jsstring :=
  match result with
  | Some r => UI.ret (stripDataUrl r)
  | None => UI.throw TypeError
  end.

(** The [loadend] callback. *)
Definition onloadend (e : env) (p : provider) (device : jsstring)
  (result : option jsstring) : UI.C state unit :=
  (base64String <- base64_of result ;;
   UI.try_finally
     (UI.try_catch
        (r <- UI.call (analyzeSkyPhoto e p base64String device) ;;
         UI.set (setAnalysis r))
        (fun err =>
           UI.call (console_error "Analysis failed" (Some err))))
     (UI.set (setLoading false))).

(** The handler, followed by the callback it installed on the reader.  A
    [Throw] outcome is the rejection of the callback's promise, which
    nothing handles. *)
Definition handleFileUpload (e : env) (p : provider) (file : chosen)
  : UI.C state unit :=
  fun s =>
    let upload result :=
      UI.set (setLoading true) ;;;
      UI.set (setAnalysis JNull) ;;;
      onloadend e p (device s) result in
    match file with
    | NoFile => UI.ret tt s
    | Loaded r => upload (Some r) s
    | ReadError => upload None s
    end.

End PhotoGuide.

(** ** Vocabulary for the properties below *)

Module Props.

(** The PhotoAnalysis shape of [types.ts]. *)
Definition all_strings (v : json) : bool :=
  match v with
  | JArr l => forallb is_string l
  | _ => false
  end.

Definition conforms_PhotoAnalysis : json -> bool :=
  is_record (fun ms =>
    has "cloudCover" is_string ms
    && has "darknessRating" is_string ms
    && has "recommendedSettings" (is_record (fun r =>
         has "iso" is_string r && has "shutterSpeed" is_string r
         && has "aperture" is_string r && has "focus" is_string r)) ms
    && has "checklist" all_strings ms
    && has "feedback" is_string ms).

(** Neither the first nor the last character is white space. *)
Definition no_outer_space (s : jsstring) : Prop :=
  (forall c rest, s = c :: rest -> is_trim_space c = false)
  /\ (forall c front, s = front ++ [c] -> is_trim_space c = false).

Definition has_web (c : chunk) : bool :=
  match web c with
  | Some _ => true
  | None => false
  end.

(** [a] is a prefix of [b]. *)
Definition extends {A} (a b : list A) : Prop := exists more, b = a ++ more.

Definition rank (c : Dashboard.ring_color) : nat :=
  match c with
  | Dashboard.Teal => 0
  | Dashboard.Purple => 1
  | Dashboard.Red => 2
  end.

Definition aurora_rank (c : Dashboard.aurora_color) : nat :=
  match c with
  | Dashboard.Green => 0
  | Dashboard.Violet => 1
  | Dashboard.Crimson => 2
  end.

End Props.

(** Inputs for the worked examples of the components. *)
Module Cases.

Definition no_key : env :=
  {| API_KEY := Some []; load_time_iso := js "2025-06-01T12:00:00.000Z" |}.

Definition with_key : env :=
  {| API_KEY := Some (js "secret"); load_time_iso := js "2025-06-01T12:00:00.000Z" |}.

(** A provider that answers with a given response. *)
Definition answering (r : GenerateContentResponse) : provider :=
  {| generateContent := fun _ _ => Ret r;
     chat_reply := fun _ message =>
       (Ret (js "Aye"), [(User, message); (Model, js "Aye")]) |}.

Definition down : provider :=
  {| generateContent := fun _ _ => Throw (ProviderError NetworkError);
     chat_reply := fun _ message =>
       (Throw (ProviderError NetworkError), [(User, message)]) |}.

Definition tromso : Coordinates :=
  {| latitude := decimal 696492 4; longitude := decimal 189553 4 |}.

Definition cited (u t : string) : chunk :=
  {| web := Some {| web_uri := Some (js u); web_title := Some (js t) |} |}.

Definition uncited : chunk := {| web := None |}.

(** A reply that is a bare JSON document, and one that wraps it in prose. *)
Definition photo_json : jsstring :=
  js "{" ++ quoted "cloudCover" ++ js ":" ++ quoted "Clear" ++ js "}".

Definition photo_value : json := JObj [field "cloudCover" (str "Clear")].

Definition bare_reply : GenerateContentResponse :=
  {| text := Some photo_json; groundingChunks := None |}.

Definition wrapped_reply : GenerateContentResponse :=
  {| text := Some (js "Here you go:" ++ [LF] ++ tagged_block photo_json ++ [LF] ++ js "Enjoy!");
     groundingChunks := None |}.

(** A reply with prose around surrounding blank space and three grounding
    chunks, one of them without a web reference. *)
Definition grounded_reply : GenerateContentResponse :=
  {| text := Some ([LF; 32] ++ js "Quiet night." ++ [32; LF]);
     groundingChunks :=
       Some [cited "https://a.example/" "A"; uncited; cited "https://b.example/" "B"] |}.

(** The provider returned no text at all. *)
Definition silent_reply : GenerateContentResponse :=
  {| text := None; groundingChunks := None |}.

(** The app after an earlier successful load at Tromso. *)
Definition loaded_app : App.state :=
  {| App.currentView := App.DASHBOARD; App.location := Some tromso;
     App.weatherData := Scenario.report_value; App.rawText := js "Old log";
     App.sources := [MOCK_SOURCE]; App.loading := false;
     App.locationError := None; App.unitSystem := App.imperial |}.

(** A reply whose tagged block decodes to the number 0. *)
Definition zero_reply : GenerateContentResponse :=
  {| text := Some (js "Nothing tonight." ++ tagged_block (js "0") ++ []);
     groundingChunks := None |}.

(** Decoded reports: an X-class flare, and a flare entry without a class. *)
Definition flaring : json :=
  JObj [field "solarFlare" (JObj [field "class" (str "X1.5")])].

Definition classless : json :=
  JObj [field "solarFlare" (JObj [field "impact" (str "Quiet Sun")])].

(** A chat with the greeting, a typed question and the demo session. *)
Definition asking : ChatGuardian.state :=
  {| ChatGuardian.session := DemoChat;
     ChatGuardian.messages :=
       [{| ChatGuardian.id := js "1"; ChatGuardian.role := Model;
           ChatGuardian.text := ChatGuardian.GREETING;
           ChatGuardian.timestamp := 900 |}];
     ChatGuardian.input := js " Will I see aurora? ";
     ChatGuardian.loading := false |}.

Definition idle_chat : ChatGuardian.state :=
  {| ChatGuardian.session := DemoChat; ChatGuardian.messages := [];
     ChatGuardian.input := [32; LF]; ChatGuardian.loading := false |}.

Definition live_chat : ChatGuardian.state :=
  {| ChatGuardian.session := LiveChat (client with_key) GEMINI_MODEL [];
     ChatGuardian.messages := []; ChatGuardian.input := js "ping";
     ChatGuardian.loading := false |}.

Definition clock : ChatGuardian.readings :=
  {| ChatGuardian.user_id_ms := 1000; ChatGuardian.user_ts := 1000;
     ChatGuardian.reply_id_ms := 1250; ChatGuardian.reply_ts := 1251 |}.

End Cases.

(** * Facts about the built-ins *)

(** ** Substring search *)

Section StrFacts.

Implicit Types p q s t a b : jsstring.

Lemma starts_with_app p s : starts_with p (p ++ s) = true.
Proof.
  induction p as [|x p IH]; simpl; [reflexivity|].
  now rewrite N.eqb_refl, IH.
Qed.

Lemma starts_with_inv p s :
  starts_with p s = true -> s = p ++ skipn (List.length p) s.
Proof.
  revert s; induction p as [|x p IH]; intros [|y s]; simpl; try easy.
  intros H. apply andb_true_iff in H as [Hxy Hp].
  apply N.eqb_eq in Hxy. subst y. f_equal. now apply IH.
Qed.

Lemma skipn_app_exact p s : skipn (List.length p) (p ++ s) = s.
Proof. induction p; simpl; auto. Qed.

(** Text beyond the length of the pattern does not matter. *)
Lemma starts_with_ext p s t :
  (List.length p <= List.length s)%nat ->
  starts_with p (s ++ t) = starts_with p s.
Proof.
  revert s; induction p as [|x p IH]; intros [|y s] Hlen; simpl in *;
    try reflexivity; try lia.
  rewrite IH by lia. reflexivity.
Qed.

Lemma split_at_first_sound p s a b :
  split_at_first p s = Some (a, b) -> s = a ++ p ++ b.
Proof.
  revert a b; induction s as [|c s IH]; intros a b; simpl.
  - destruct (starts_with p []) eqn:E; [|discriminate].
    intros [= <- <-]. now apply starts_with_inv in E.
  - destruct (starts_with p (c :: s)) eqn:E.
    + intros [= <- <-]. now apply starts_with_inv in E.
    + destruct (split_at_first p s) as [[a' b']|] eqn:F; [|discriminate].
      intros [= <- <-]. simpl. f_equal. now apply IH.
Qed.

Lemma split_at_first_found p a b :
  exists a' b', split_at_first p (a ++ p ++ b) = Some (a', b').
Proof.
  induction a as [|c a IH]; simpl.
  - destruct (p ++ b) eqn:E; simpl;
      rewrite <- ?E, starts_with_app; eauto.
  - destruct (starts_with p (c :: a ++ p ++ b)); eauto.
    destruct IH as (a' & b' & ->). eauto.
Qed.

(** Unfolding [split_at_first] one step, whatever the shape of [s]. *)
Lemma split_at_first_eq p s :
  split_at_first p s =
  if starts_with p s then Some ([], skipn (List.length p) s)
  else match s with
       | [] => None
       | c :: s' =>
           match split_at_first p s' with
           | Some (a, b) => Some (c :: a, b)
           | None => None
           end
       end.
Proof. destruct s; reflexivity. Qed.

Lemma split_at_first_here p s : split_at_first p (p ++ s) = Some ([], s).
Proof.
  rewrite split_at_first_eq, starts_with_app, skipn_app_exact. reflexivity.
Qed.

(** While the search is still inside [a], the pattern does not start. *)
Lemma ends_first_cons p c a :
  ends_first p (c :: a) ->
  starts_with p ((c :: a) ++ p) = false /\ ends_first p a.
Proof.
  unfold ends_first. rewrite split_at_first_eq.
  destruct (starts_with p ((c :: a) ++ p)) eqn:E; [discriminate|].
  simpl. destruct (split_at_first p (a ++ p)) as [[a' b']|]; [|discriminate].
  intros [= -> ->]. auto.
Qed.

Lemma ends_first_ext p a t :
  ends_first p a -> split_at_first p (a ++ p ++ t) = Some (a, t).
Proof.
  induction a as [|c a IH]; intros H.
  - exact (split_at_first_here p t).
  - apply ends_first_cons in H as [Hno Ha].
    rewrite split_at_first_eq.
    replace ((c :: a) ++ p ++ t) with (((c :: a) ++ p) ++ t)
      by now rewrite <- app_assoc.
    rewrite starts_with_ext, Hno by (rewrite length_app; lia).
    simpl. rewrite <- app_assoc, (IH Ha). reflexivity.
Qed.

Lemma ends_first_suffix p a1 a2 : ends_first p (a1 ++ a2) -> ends_first p a2.
Proof.
  induction a1 as [|c a1 IH]; simpl; auto.
  intros H. apply IH. now apply (ends_first_cons p c (a1 ++ a2)).
Qed.

(** The declarative reading: [p] occurs in [a ++ p] at the end only. *)
Lemma ends_first_spec p a :
  ends_first p a <-> (forall a' b', a ++ p = a' ++ p ++ b' -> a' = a).
Proof.
  split.
  - intros H a' b' E. 
    revert a H E. induction a' as [|c a' IH]; intros a H E.
    + destruct a as [|d a]; [reflexivity|].
      apply ends_first_cons in H as [Hno _].
      rewrite E in Hno. simpl in Hno. now rewrite starts_with_app in Hno.
    + destruct a as [|d a].
      * (* the whole of [p] would be strictly shorter than itself *)
        apply (f_equal (@List.length _)) in E.
        simpl in E. rewrite !length_app in E. simpl in E. lia.
      * simpl in E. injection E as -> E.
        apply ends_first_cons in H as [_ Ha].
        f_equal. now apply IH.
  - induction a as [|c a IH]; intros H.
    + unfold ends_first. simpl. rewrite <- (app_nil_r p) at 2.
      now rewrite split_at_first_here.
    + unfold ends_first. rewrite split_at_first_eq.
      destruct (starts_with p ((c :: a) ++ p)) eqn:E.
      * apply starts_with_inv in E. specialize (H [] _ E). discriminate.
      * simpl. unfold ends_first in IH. rewrite IH; [reflexivity|].
        intros a' b' E'. specialize (H (c :: a') b').
        simpl in H. rewrite E' in H. specialize (H eq_refl).
        now injection H.
Qed.

Lemma includes_substring p s : includes p s = true <-> substring p s.
Proof.
  split.
  - induction s as [|c s IH]; simpl; intros H.
    + rewrite orb_false_r in H. apply starts_with_inv in H.
      exists [], (skipn (List.length p) []). exact H.
    + apply orb_true_iff in H as [H|H].
      * apply starts_with_inv in H. now exists [], (skipn (List.length p) (c :: s)).
      * destruct (IH H) as (pre & post & ->). now exists (c :: pre), post.
  - intros (pre & post & ->). induction pre as [|c pre IH]; simpl.
    + destruct (p ++ post) eqn:E; simpl; rewrite <- ?E, starts_with_app; reflexivity.
    + rewrite IH. apply orb_true_r.
Qed.

End StrFacts.

(** ** The regular-expression engine on fence patterns *)

Section RegexFacts.

Implicit Types p q s t c : jsstring.

(** A literal prefix of the pattern must be a prefix of the text. *)
Lemma match_here_lit p r s :
  match_here (map Chr p ++ r) s =
  if starts_with p s
  then option_map (prepend p) (match_here r (skipn (List.length p) s))
  else None.
Proof.
  revert s; induction p as [|x p IH]; intros s; simpl.
  - destruct (match_here r s) as [[[m g] rest]|]; reflexivity.
  - destruct s as [|y s]; [reflexivity|].
    destruct (N.eqb_spec x y) as [->|]; simpl; [|reflexivity].
    rewrite IH. destruct (starts_with p s); [|reflexivity].
    destruct (match_here r (skipn (List.length p) s)) as [[[m g] rest]|];
      reflexivity.
Qed.

Lemma match_here_lazy_eq cap r s :
  match_here (LazyAny cap :: r) s =
  match match_here r s with
  | Some (m, g, rest) => Some (m, if cap then Some [] else g, rest)
  | None =>
      match s with
      | [] => None
      | x :: s' => option_map (consume x cap) (match_here (LazyAny cap :: r) s')
      end
  end.
Proof. destruct s; reflexivity. Qed.

Lemma match_here_literal q s :
  match_here (map Chr q) s =
  if starts_with q s then Some (q, None, skipn (List.length q) s) else None.
Proof.
  rewrite <- (app_nil_r (map Chr q)), match_here_lit. simpl.
  destruct (starts_with q s); [|reflexivity]. now rewrite app_nil_r.
Qed.

(** The lazy run stops at the first place where the rest of the pattern
    fits: it captures the text up to the leftmost occurrence of [q]. *)
Lemma match_here_lazy cap q s :
  match_here (LazyAny cap :: map Chr q) s =
  match split_at_first q s with
  | Some (c, rest) => Some (c ++ q, if cap then Some c else None, rest)
  | None => None
  end.
Proof.
  induction s as [|x s IH]; rewrite match_here_lazy_eq, match_here_literal,
    split_at_first_eq.
  - destruct (starts_with q []); [destruct cap|]; reflexivity.
  - destruct (starts_with q (x :: s)); [destruct cap; reflexivity|].
    rewrite IH. destruct (split_at_first q s) as [[c rest]|]; [|reflexivity].
    destruct cap; reflexivity.
Qed.

Lemma match_here_fence p cap q s :
  match_here (fence p cap q) s =
  if starts_with p s then
    match split_at_first q (skipn (List.length p) s) with
    | Some (c, rest) => Some (p ++ c ++ q, if cap then Some c else None, rest)
    | None => None
    end
  else None.
Proof.
  unfold fence. rewrite match_here_lit, match_here_lazy.
  destruct (starts_with p s); [|reflexivity].
  destruct (split_at_first q _) as [[c rest]|]; reflexivity.
Qed.

Lemma exec_eq r s :
  exec r s =
  match match_here r s with
  | Some (m, g, rest) =>
      Some {| before := []; matched := m; group1 := g; after := rest |}
  | None =>
      match s with
      | [] => None
      | x :: s' => option_map (shift x) (exec r s')
      end
  end.
Proof. destruct s; reflexivity. Qed.

(** What [exec] returns is a match of the pattern at the reported index. *)
Lemma exec_sound r s m :
  exec r s = Some m ->
  exists suffix, s = before m ++ suffix /\
    match_here r suffix = Some (matched m, group1 m, after m).
Proof.
  revert m; induction s as [|x s IH]; intros m; rewrite exec_eq.
  - destruct (match_here r []) as [[[mt g] rest]|] eqn:E; [|discriminate].
    intros [= <-]. exists []. auto.
  - destruct (match_here r (x :: s)) as [[[mt g] rest]|] eqn:E.
    + intros [= <-]. exists (x :: s). auto.
    + destruct (exec r s) as [m'|]; [|discriminate].
      intros [= <-]. destruct (IH m' eq_refl) as (suffix & -> & Hm).
      exists suffix. auto.
Qed.

(** [exec] skips a prefix in which the pattern matches nowhere. *)
Lemma exec_skip r pre rest mt g aft :
  (forall a x b, pre = a ++ x :: b -> match_here r (x :: b ++ rest) = None) ->
  match_here r rest = Some (mt, g, aft) ->
  exec r (pre ++ rest) =
  Some {| before := pre; matched := mt; group1 := g; after := aft |}.
Proof.
  intros Hpre Hrest. induction pre as [|x pre IH]; simpl app.
  - rewrite exec_eq, Hrest. reflexivity.
  - rewrite exec_eq, (Hpre [] x pre eq_refl), IH; [reflexivity|].
    intros a y b ->. apply (Hpre (x :: a) y b). reflexivity.
Qed.

(** If the pattern matches somewhere, [exec] finds a match. *)
Lemma exec_finds r pre rest :
  match_here r rest <> None -> exec r (pre ++ rest) <> None.
Proof.
  intros H. induction pre as [|x pre IH]; simpl app; rewrite exec_eq.
  - destruct (match_here r rest) as [[[mt g] aft]|]; congruence.
  - destruct (match_here r (x :: pre ++ rest)) as [[[mt g] aft]|]; [congruence|].
    destruct (exec r (pre ++ rest)); simpl; congruence.
Qed.

(** *** Fence patterns *)

(** The leftmost fence: [p] does not start earlier, and [q] does not occur
    inside the content. *)
Lemma exec_fence_first p cap q pre c post :
  ends_first p pre ->
  ends_first q c ->
  exec (fence p cap q) (pre ++ p ++ c ++ q ++ post) =
  Some {| before := pre; matched := p ++ c ++ q;
          group1 := if cap then Some c else None; after := post |}.
Proof.
  intros Hp Hq. apply exec_skip.
  - intros a x b ->. apply ends_first_suffix in Hp.
    apply ends_first_cons in Hp as [Hno _].
    rewrite match_here_fence.
    replace (x :: b ++ p ++ c ++ q ++ post)
      with (((x :: b) ++ p) ++ c ++ q ++ post)
      by (simpl; now rewrite <- app_assoc).
    rewrite starts_with_ext, Hno by (rewrite length_app; lia).
    reflexivity.
  - rewrite match_here_fence, starts_with_app, skipn_app_exact.
    now rewrite (ends_first_ext q c post Hq).
Qed.

Lemma exec_fence_sound p cap q s m :
  exec (fence p cap q) s = Some m ->
  exists c, s = before m ++ p ++ c ++ q ++ after m
            /\ matched m = p ++ c ++ q
            /\ group1 m = (if cap then Some c else None).
Proof.
  intros H. apply exec_sound in H as (suffix & Hs & Hm).
  rewrite match_here_fence in Hm.
  destruct (starts_with p suffix) eqn:E; [|discriminate].
  apply starts_with_inv in E.
  destruct (split_at_first q _) as [[c rest]|] eqn:F; [|discriminate].
  apply split_at_first_sound in F.
  injection Hm as <- <- <-. exists c. repeat split; auto.
  rewrite Hs, E at 1. now rewrite F.
Qed.

Lemma exec_fence_finds p cap q pre c post :
  exec (fence p cap q) (pre ++ p ++ c ++ q ++ post) <> None.
Proof.
  apply exec_finds. rewrite match_here_fence, starts_with_app, skipn_app_exact.
  destruct (split_at_first_found q c post) as (a & b & ->). discriminate.
Qed.

End RegexFacts.

(** ** [JSON.parse] and the closing fence *)

Section JsonFacts.

(** A line feed is white space between tokens and nothing else: whatever the
    lexer was reading, after a line feed it is between tokens. *)
Lemma lex_step_LF st st' out :
  lit_ok st -> lex_step st LF = Some (st', out) -> st' = LStart.
Proof.
  destruct st as [|acc|acc|acc need v|p a|remaining t];
    cbn [lex_step lit_ok]; intros Hok H.
  - cbv in H. congruence.
  - cbv in H. discriminate.
  - cbv in H. discriminate.
  - cbv in H. discriminate.
  - destruct p; cbn -[number_value] in H; congruence.
  - destruct remaining as [|x [|y more]]; [discriminate| |];
      destruct (N.eqb_spec LF x) as [<-|]; try discriminate;
      exfalso; apply Hok; now left.
Qed.

Lemma start_step_ok c st out : start_step c = Some (st, out) -> lit_ok st.
Proof.
  unfold start_step.
  repeat match goal with
         | |- (if ?b then _ else _) = _ -> _ => destruct b
         end;
    intros [= <- _]; simpl; try exact I;
    intros H; repeat (destruct H as [H|H]; [discriminate H|]); exact H.
Qed.

Lemma lex_step_ok st c st' out :
  lit_ok st -> lex_step st c = Some (st', out) -> lit_ok st'.
Proof.
  destruct st as [|acc|acc|acc need v|p a|remaining t]; simpl; intros Hok H.
  - eapply start_step_ok; eauto.
  - destruct (c =? 34); [now injection H as <- _|].
    destruct (c =? 92); [now injection H as <- _|].
    destruct (c <? 32); [discriminate|]. now injection H as <- _.
  - destruct (c =? 117); [now injection H as <- _|].
    destruct (escape c); [|discriminate]. now injection H as <- _.
  - destruct (hex_val c); [|discriminate].
    destruct need as [|[|k]]; [discriminate| |]; now injection H as <- _.
  - destruct (num_step p a c) as [[p' a']|]; [now injection H as <- _|].
    destruct (accepting p); [|discriminate].
    destruct (start_step c) as [[st1 out1]|] eqn:E; [|discriminate].
    injection H as <- _. eapply start_step_ok; eauto.
  - destruct remaining as [|x [|y more]]; [discriminate| |];
      destruct (c =? x); try discriminate; injection H as <- _; simpl; auto.
    intros Hin. apply Hok. now right.
Qed.

Lemma lex_from_nl_backtick_free s :
  forall st ts, lit_ok st -> lex_from st s = Some ts -> nl_backtick_free s = true.
Proof.
  induction s as [|c s IH]; intros st ts Hok H; [reflexivity|].
  simpl in H.
  destruct (lex_step st c) as [[st' out]|] eqn:Hstep; [|discriminate].
  destruct (lex_from st' s) as [ts'|] eqn:Hrest; [|discriminate].
  pose proof (lex_step_ok _ _ _ _ Hok Hstep) as Hok'.
  pose proof (IH _ _ Hok' Hrest) as Hs.
  destruct s as [|d s']; [reflexivity|].
  change (negb ((c =? LF) && (d =? BACKTICK)) && nl_backtick_free (d :: s') = true).
  rewrite Hs, andb_true_r.
  destruct (N.eqb_spec c LF) as [->|]; [|reflexivity].
  destruct (N.eqb_spec d BACKTICK) as [->|]; [|reflexivity].
  apply lex_step_LF in Hstep; [|assumption]. subst st'.
  discriminate Hrest.
Qed.

(** Text that [JSON.parse] accepts never has a backtick right after a line
    feed: outside strings a backtick is no token, and inside strings a raw
    line feed is forbidden. *)
Lemma JSON_parse_nl_backtick_free c v :
  JSON_parse c = Ret v -> nl_backtick_free c = true.
Proof.
  unfold JSON_parse, lex. intros H.
  destruct (lex_from LStart c) as [ts|] eqn:E; [|discriminate].
  eapply lex_from_nl_backtick_free; [|exact E]. exact I.
Qed.

(** Hence the closing fence cannot begin inside valid content. *)
Lemma nl_backtick_free_ends_first c :
  nl_backtick_free c = true -> ends_first fence_close c.
Proof.
  unfold ends_first. induction c as [|x c IH]; intros H; [reflexivity|].
  rewrite split_at_first_eq.
  assert (Hno : starts_with fence_close ((x :: c) ++ fence_close) = false).
  { change (((LF =? x) && starts_with (js "```") (c ++ fence_close)) = false).
    destruct (N.eqb_spec LF x) as [<-|]; [|reflexivity].
    destruct c as [|d c']; [reflexivity|].
    change (((BACKTICK =? d) && starts_with (js "``") (c' ++ fence_close)) = false).
    destruct (N.eqb_spec BACKTICK d) as [<-|]; [|reflexivity].
    discriminate H. }
  rewrite Hno. cbn [app].
  rewrite IH; [reflexivity|].
  destruct c as [|d c']; [reflexivity|].
  change (negb ((x =? LF) && (d =? BACKTICK)) && nl_backtick_free (d :: c') = true) in H.
  now apply andb_true_iff in H as [_ H].
Qed.

Lemma valid_content_ends_first c v :
  JSON_parse c = Ret v -> ends_first fence_close c.
Proof.
  intros H. apply nl_backtick_free_ends_first.
  eapply JSON_parse_nl_backtick_free; eauto.
Qed.

End JsonFacts.

(** ** Trimming *)

Section TrimFacts.

Lemma trimStart_head s c r : trimStart s = c :: r -> is_trim_space c = false.
Proof.
  induction s as [|x s IH]; cbn [trimStart]; [discriminate|].
  destruct (is_trim_space x) eqn:E; [exact IH|]. now intros [= <- _].
Qed.

Lemma trimStart_fixed s :
  (forall c r, s = c :: r -> is_trim_space c = false) -> trimStart s = s.
Proof.
  destruct s as [|x s]; [reflexivity|]. intros H. cbn [trimStart].
  now rewrite (H x s eq_refl).
Qed.

(** [trimStart] drops a prefix. *)
Lemma trimStart_drops s : exists sp, s = sp ++ trimStart s.
Proof.
  induction s as [|x s [sp IH]]; [now exists []|]. cbn [trimStart].
  destruct (is_trim_space x); [|now exists []].
  exists (x :: sp). cbn [app]. now rewrite <- IH.
Qed.

(** [trimEnd] drops a suffix. *)
Lemma trimEnd_drops s : exists sp, s = trimEnd s ++ sp.
Proof.
  unfold trimEnd. destruct (trimStart_drops (rev s)) as [sp H].
  exists (rev sp). rewrite <- rev_app_distr, <- H. now rewrite rev_involutive.
Qed.

Lemma trimEnd_last s c front : trimEnd s = front ++ [c] -> is_trim_space c = false.
Proof.
  unfold trimEnd. intros H. apply (f_equal (@rev _)) in H.
  rewrite rev_involutive, rev_app_distr in H. cbn in H.
  now apply trimStart_head in H.
Qed.

Lemma trimEnd_fixed s :
  (forall c front, s = front ++ [c] -> is_trim_space c = false) -> trimEnd s = s.
Proof.
  intros H. unfold trimEnd. rewrite trimStart_fixed; [apply rev_involutive|].
  intros c r E. apply (H c (rev r)).
  apply (f_equal (@rev _)) in E. rewrite rev_involutive in E. exact E.
Qed.

Lemma trim_no_outer_space s : Props.no_outer_space (trim s).
Proof.
  unfold trim. split.
  - intros c rest E. destruct (trimEnd_drops (trimStart s)) as [sp H].
    rewrite E in H. cbn [app] in H. now apply trimStart_head in H.
  - intros c front E. now apply trimEnd_last in E.
Qed.

Lemma trim_fixed s : Props.no_outer_space s -> trim s = s.
Proof.
  intros [Hh Hl]. unfold trim. rewrite (trimStart_fixed _ Hh).
  now apply trimEnd_fixed.
Qed.

Lemma substring_trans a b c : substring a b -> substring b c -> substring a c.
Proof.
  intros (p1 & q1 & ->) (p2 & q2 & ->).
  exists (p2 ++ p1), (q1 ++ q2). now rewrite <- !app_assoc.
Qed.

Lemma trim_substring s : substring (trim s) s.
Proof.
  destruct (trimStart_drops s) as [sp1 H1].
  destruct (trimEnd_drops (trimStart s)) as [sp2 H2].
  exists sp1, sp2. unfold trim. now rewrite <- H2.
Qed.

End TrimFacts.

(** ** The effectful layer *)

Section ServiceFacts.

Lemma tagged_fence_shape : tagged_fence = fence tagged_open true fence_close.
Proof. reflexivity. Qed.

Lemma untagged_fence_shape : untagged_fence = fence untagged_open true fence_close.
Proof. reflexivity. Qed.

Lemma strip_fence_shape : strip_fence = fence (js "```json") false (js "```").
Proof. reflexivity. Qed.

Lemma getAI_demo e w :
  missing (API_KEY e) = true ->
  exists w', getAI e w = (Ret None, w') /\ waited_ms w' = waited_ms w
             /\ history w' = history w.
Proof.
  intros H. unfold getAI. rewrite H. eexists. repeat split.
Qed.

Lemma getAI_live e w :
  missing (API_KEY e) = false -> getAI e w = (Ret (Some (client e)), w).
Proof. intros H. unfold getAI. now rewrite H. Qed.

Lemma decode_block_ok c v w :
  JSON_parse c = Ret v -> decode_block c w = (Ret v, w).
Proof. intros H. unfold decode_block, try_catch, lift. now rewrite H. Qed.

Lemma decode_block_fail c e w :
  JSON_parse c = Throw e -> decode_block c w = (Ret JNull, warned w e).
Proof. intros H. unfold decode_block, try_catch, lift. now rewrite H. Qed.

Lemma decode_block_returns c w : exists v w', decode_block c w = (Ret v, w').
Proof.
  destruct (JSON_parse c) as [v|e] eqn:E.
  - rewrite (decode_block_ok _ _ _ E). eauto.
  - rewrite (decode_block_fail _ _ _ E). eauto.
Qed.

Lemma extractJson_located text m w :
  jsonMatch text = Some m -> extractJson text w = decode_block (element1 m) w.
Proof. intros H. unfold extractJson. now rewrite H. Qed.

Lemma extractJson_no_match text w :
  jsonMatch text = None -> extractJson text w = (Ret JNull, w).
Proof. intros H. unfold extractJson. now rewrite H. Qed.

(** The first tagged fence of a text is the match the extractor uses. *)
Lemma jsonMatch_first_tagged pre content post :
  ends_first tagged_open pre ->
  ends_first fence_close content ->
  jsonMatch (pre ++ tagged_block content ++ post) =
  Some {| before := pre; matched := tagged_block content;
          group1 := Some content; after := post |}.
Proof.
  intros Hp Hc. unfold jsonMatch, String_match, tagged_block.
  rewrite tagged_fence_shape.
  replace (pre ++ (tagged_open ++ content ++ fence_close) ++ post)
    with (pre ++ tagged_open ++ content ++ fence_close ++ post)
    by now rewrite <- !app_assoc.
  now rewrite (exec_fence_first _ true _ _ _ post Hp Hc).
Qed.

(** Whatever the extractor locates is a fenced block of the text, and the
    text it hands to [JSON.parse] is the content of that block. *)
Lemma jsonMatch_sound text m :
  jsonMatch text = Some m ->
  text = before m ++ tagged_block (element1 m) ++ after m
  \/ text = before m ++ untagged_block (element1 m) ++ after m.
Proof.
  unfold jsonMatch, String_match, or_else, element1, tagged_block, untagged_block.
  destruct (exec tagged_fence text) as [m1|] eqn:E1.
  - intros [= <-]. rewrite tagged_fence_shape in E1.
    apply exec_fence_sound in E1 as (c & -> & _ & ->). left.
    now rewrite <- !app_assoc.
  - intros E2. rewrite untagged_fence_shape in E2.
    apply exec_fence_sound in E2 as (c & -> & _ & ->). right.
    now rewrite <- !app_assoc.
Qed.

(** A tagged block anywhere in the text makes the tagged pattern match. *)
Lemma tagged_block_found pre content post :
  exists m, exec tagged_fence (pre ++ tagged_block content ++ post) = Some m.
Proof.
  unfold tagged_block. rewrite tagged_fence_shape.
  replace (pre ++ (tagged_open ++ content ++ fence_close) ++ post)
    with (pre ++ tagged_open ++ content ++ fence_close ++ post)
    by now rewrite <- !app_assoc.
  pose proof (exec_fence_finds tagged_open true fence_close pre content post) as H.
  destruct (exec _ _) as [m|]; [eauto|congruence].
Qed.

Lemma jsonMatch_none text : jsonMatch text = None -> no_fenced_block text.
Proof.
  unfold jsonMatch, String_match, or_else.
  destruct (exec tagged_fence text) as [m1|] eqn:E1; [discriminate|].
  intros E2 b [content [-> | ->]] (pre & post & ->).
  - destruct (tagged_block_found pre content post) as [m Hm]. congruence.
  - unfold untagged_block in E2. rewrite untagged_fence_shape in E2.
    replace (pre ++ (untagged_open ++ content ++ fence_close) ++ post)
      with (pre ++ untagged_open ++ content ++ fence_close ++ post) in E2
      by now rewrite <- !app_assoc.
    now apply exec_fence_finds in E2.
Qed.

Lemma no_fenced_block_no_match text :
  no_fenced_block text -> jsonMatch text = None.
Proof.
  intros H. destruct (jsonMatch text) as [m|] eqn:E; [|reflexivity].
  exfalso. destruct (jsonMatch_sound _ _ E) as [Ht | Ht].
  - apply (H (tagged_block (element1 m))); [eexists; eauto|].
    now exists (before m), (after m).
  - apply (H (untagged_block (element1 m))); [eexists; eauto|].
    now exists (before m), (after m).
Qed.

Lemma extractJson_returns text w : exists v w', extractJson text w = (Ret v, w').
Proof.
  destruct (jsonMatch text) as [m|] eqn:E.
  - rewrite (extractJson_located _ _ w E). apply decode_block_returns.
  - rewrite (extractJson_no_match _ w E). eauto.
Qed.

End ServiceFacts.

(** ** Narrative text and the live path *)

Section FetcherFacts.

Lemma ends_first_intro p x a :
  starts_with p ((x :: a) ++ p) = false -> ends_first p a -> ends_first p (x :: a).
Proof.
  unfold ends_first. intros Hno Ha.
  rewrite split_at_first_eq, Hno. cbn [app]. now rewrite Ha.
Qed.

Lemma ends_first_nil p : ends_first p [].
Proof.
  unfold ends_first. cbn [app]. rewrite <- (app_nil_r p) at 2.
  apply split_at_first_here.
Qed.

Lemma starts_with_guard q s z t :
  starts_with q s = false -> ~ In z q -> starts_with q (s ++ z :: t) = false.
Proof.
  revert s; induction q as [|a q IH]; intros s Hs Hz; [discriminate|].
  destruct s as [|y s]; cbn [app starts_with].
  - destruct (N.eqb_spec a z) as [->|]; [|reflexivity].
    exfalso. apply Hz. now left.
  - cbn [starts_with] in Hs.
    destruct (a =? y); [|reflexivity]. cbn [andb] in *.
    apply IH; [exact Hs|]. intros Hin. apply Hz. now right.
Qed.

(** Text free of [q], closed by a character foreign to [q], cannot hold the
    start of an occurrence of [q]. *)
Lemma ends_first_guarded q z c :
  q <> [] -> ~ In z q -> includes q c = false -> ends_first q (c ++ [z]).
Proof.
  intros Hq Hz. induction c as [|x c IH]; intros H.
  - apply ends_first_intro; [|apply ends_first_nil].
    destruct q as [|a q]; [congruence|]. cbn [app starts_with].
    destruct (N.eqb_spec a z) as [->|]; [|reflexivity].
    exfalso. apply Hz. now left.
  - cbn [includes] in H. apply orb_false_iff in H as [Hx Hc].
    cbn [app]. apply ends_first_intro; [|now apply IH].
    replace ((x :: c ++ [z]) ++ q) with ((x :: c) ++ z :: q)
      by (cbn [app]; now rewrite <- app_assoc).
    now apply starts_with_guard.
Qed.

Lemma no_fenced_block_no_valid text : no_fenced_block text -> no_valid_block text.
Proof.
  intros H content [Hs | Hs]; exfalso;
    (eapply H; [|exact Hs]); eexists; eauto.
Qed.

Lemma no_valid_block_null text w :
  no_valid_block text -> exists w', extractJson text w = (Ret JNull, w').
Proof.
  intros H. destruct (jsonMatch text) as [m|] eqn:E.
  - rewrite (extractJson_located _ _ w E).
    destruct (H (element1 m)) as [e He].
    + destruct (jsonMatch_sound _ _ E) as [Ht | Ht]; [left | right];
        now exists (before m), (after m).
    + rewrite (decode_block_fail _ _ _ He). eauto.
  - rewrite (extractJson_no_match _ w E). eauto.
Qed.

(** The live path when the provider answers. *)
Lemma fetchSpaceWeather_live_ok e p coords w resp :
  missing (API_KEY e) = false ->
  generateContent p (client e) (weather_request coords) = Ret resp ->
  exists v w',
    extractJson (text_or_empty (text resp)) w = (Ret v, w')
    /\ fetchSpaceWeather e p coords w =
       (Ret {| data := v;
               rawText := narrative (text_or_empty (text resp));
               sources := mapSources (match groundingChunks resp with
                                      | Some cs => cs
                                      | None => []
                                      end) |}, w').
Proof.
  intros Hkey Hresp.
  destruct (extractJson_returns (text_or_empty (text resp)) w) as (v & w' & Hv).
  exists v, w'. split; [exact Hv|].
  unfold fetchSpaceWeather, bind. rewrite (getAI_live _ _ Hkey).
  unfold try_catch, bind, lift. rewrite Hresp, Hv. reflexivity.
Qed.

(** The live path when the provider call is rejected. *)
Lemma fetchSpaceWeather_live_fail e p coords w err :
  missing (API_KEY e) = false ->
  generateContent p (client e) (weather_request coords) = Throw err ->
  fetchSpaceWeather e p coords w =
  (Throw err, errored w "Error fetching space weather:" err).
Proof.
  intros Hkey Hresp.
  unfold fetchSpaceWeather, bind. rewrite (getAI_live _ _ Hkey).
  unfold try_catch, bind, lift. rewrite Hresp. reflexivity.
Qed.

End FetcherFacts.

(** ** Further lemmas on patterns and the live path *)

Section MoreFacts.

Lemma includes_cons p x s : includes p (x :: s) = false -> includes p s = false.
Proof.
  cbn [includes]. intros H. now apply orb_false_iff in H as [_ H].
Qed.

Lemma includes_head p s : includes p s = false -> starts_with p s = false.
Proof.
  destruct s; cbn [includes]; intros H; now apply orb_false_iff in H as [H _].
Qed.

(** Without an occurrence of the opening literal a fence cannot match. *)
Lemma exec_fence_no_opening p cap q s :
  includes p s = false -> exec (fence p cap q) s = None.
Proof.
  induction s as [|x s IH]; intros H; rewrite exec_eq, match_here_fence,
    (includes_head _ _ H); [reflexivity|].
  now rewrite IH by (eapply includes_cons; eauto).
Qed.

Lemma jsonMatch_first_untagged pre content post :
  includes tagged_open (pre ++ untagged_block content ++ post) = false ->
  ends_first untagged_open pre ->
  ends_first fence_close content ->
  jsonMatch (pre ++ untagged_block content ++ post) =
  Some {| before := pre; matched := untagged_block content;
          group1 := Some content; after := post |}.
Proof.
  intros Hno Hp Hc. unfold jsonMatch, String_match.
  rewrite tagged_fence_shape, (exec_fence_no_opening _ _ _ _ Hno).
  cbn [or_else]. unfold untagged_block. rewrite untagged_fence_shape.
  replace (pre ++ (untagged_open ++ content ++ fence_close) ++ post)
    with (pre ++ untagged_open ++ content ++ fence_close ++ post)
    by now rewrite <- !app_assoc.
  now rewrite (exec_fence_first _ true _ _ _ post Hp Hc).
Qed.

Lemma closing_fence_not_free a b : nl_backtick_free (a ++ fence_close ++ b) = false.
Proof.
  induction a as [|x a IH]; [reflexivity|].
  cbn [app]. destruct (a ++ fence_close ++ b) as [|d r] eqn:E.
  - destruct a; discriminate E.
  - change (negb ((x =? LF) && (d =? BACKTICK)) && nl_backtick_free (d :: r) = false).
    rewrite IH. apply andb_false_r.
Qed.

(** A text that holds a closing fence is never JSON as a whole. *)
Lemma fenced_text_is_not_json a b :
  exists e, JSON_parse (a ++ fence_close ++ b) = Throw e.
Proof.
  destruct (JSON_parse (a ++ fence_close ++ b)) as [v|e] eqn:E; [|eauto].
  apply JSON_parse_nl_backtick_free in E.
  now rewrite closing_fence_not_free in E.
Qed.

Lemma narrative_no_marker t :
  includes (js "```json") t = false -> narrative t = trim t.
Proof.
  intros H. unfold narrative, String_replace.
  now rewrite strip_fence_shape, (exec_fence_no_opening _ _ _ _ H).
Qed.

Lemma mapSources_length cs :
  List.length (mapSources cs) = List.length (filter Props.has_web cs).
Proof.
  induction cs as [|c cs IH]; [reflexivity|].
  cbn [mapSources filter]. unfold Props.has_web at 1.
  destruct (web c); cbn [List.length]; now rewrite IH.
Qed.

Lemma mapSources_In cs s :
  In s (mapSources cs) <->
  exists w, In {| web := Some w |} cs
            /\ s = {| uri := web_uri w; title := web_title w |}.
Proof.
  induction cs as [|[[w|]] cs IH]; cbn [mapSources In web].
  - split; [easy|]. now intros (w & [] & _).
  - rewrite IH. split.
    + intros [<- | (w' & Hin & ->)]; [exists w | exists w']; auto.
    + intros (w' & [[= <-] | Hin] & ->); [now left|right; eauto].
  - rewrite IH. split.
    + intros (w' & Hin & ->). eauto.
    + intros (w' & [[=] | Hin] & ->). eauto.
Qed.

Lemma mapSources_app a b : mapSources (a ++ b) = mapSources a ++ mapSources b.
Proof.
  induction a as [|c a IH]; [reflexivity|]. cbn [app mapSources].
  destruct (web c); cbn [app]; now rewrite IH.
Qed.

(** The live path of the photo advisor when the provider answers. *)
Lemma analyzeSkyPhoto_live_ok e p image device w resp :
  missing (API_KEY e) = false ->
  generateContent p (client e) (photo_request image device) = Ret resp ->
  analyzeSkyPhoto e p image device w =
  match JSON_parse (text_or_empty (text resp)) with
  | Ret v => (Ret v, w)
  | Throw _ => extractJson (text_or_empty (text resp)) w
  end.
Proof.
  intros Hkey Hresp. unfold analyzeSkyPhoto, bind. rewrite (getAI_live _ _ Hkey).
  unfold try_catch, bind, lift. rewrite Hresp.
  destruct (JSON_parse (text_or_empty (text resp))) as [v|err]; [reflexivity|].
  destruct (extractJson_returns (text_or_empty (text resp)) w) as (v & w' & ->).
  reflexivity.
Qed.

Lemma starts_with_app_l p t s :
  starts_with (p ++ t) s = true -> starts_with p s = true.
Proof.
  revert s; induction p as [|a p IH]; intros s H; [reflexivity|].
  destruct s as [|y s]; cbn [app starts_with] in *; [discriminate|].
  apply andb_true_iff in H as [-> H]. cbn [andb]. now apply IH.
Qed.

(** Where a marker first occurs, a longer marker that begins with it cannot
    occur earlier. *)
Lemma ends_first_longer p t a : ends_first p a -> ends_first (p ++ t) a.
Proof.
  induction a as [|c a IH]; intros H; [apply ends_first_nil|].
  apply ends_first_cons in H as [Hno Ha].
  apply ends_first_intro; [|now apply IH].
  destruct (starts_with (p ++ t) ((c :: a) ++ p ++ t)) eqn:E; [|reflexivity].
  apply starts_with_app_l in E.
  replace ((c :: a) ++ p ++ t) with (((c :: a) ++ p) ++ t) in E
    by now rewrite <- app_assoc.
  rewrite starts_with_ext in E by (rewrite length_app; lia).
  congruence.
Qed.

(** Text free of [q] cannot hold the start of an occurrence of [z :: q]
    when [z] is foreign to [q]. *)
Lemma ends_first_led q z c :
  ~ In z q -> includes q c = false -> ends_first (z :: q) c.
Proof.
  intros Hz. induction c as [|x c IH]; intros H; [apply ends_first_nil|].
  pose proof (includes_cons _ _ _ H) as Hc.
  apply ends_first_intro; [|now apply IH].
  cbn [app starts_with].
  destruct (z =? x); [|reflexivity]. cbn [andb].
  apply starts_with_guard; [|exact Hz]. now apply includes_head.
Qed.

(** The narrative of a reply whose first [```json] marker opens a tagged
    block with no triple backtick in its content: the block is cut out. *)
Lemma narrative_first_tagged_block pre content post :
  ends_first (js "```json") pre ->
  includes (js "```") content = false ->
  narrative (pre ++ tagged_block content ++ post) = trim (pre ++ post).
Proof.
  intros Hpre Hc. unfold narrative, String_replace.
  rewrite strip_fence_shape.
  replace (pre ++ tagged_block content ++ post)
    with (pre ++ js "```json" ++ ((LF :: content) ++ [LF]) ++ js "```" ++ post).
  2:{ unfold tagged_block, tagged_open, fence_close.
      rewrite <- !app_assoc. reflexivity. }
  rewrite (exec_fence_first (js "```json") false (js "```") pre
             ((LF :: content) ++ [LF]) post).
  - reflexivity.
  - exact Hpre.
  - apply ends_first_guarded.
    + discriminate.
    + cbv. intuition discriminate.
    + cbn [includes]. now rewrite Hc.
Qed.

(** The block at the first [```json] marker is the one the extractor
    locates. *)
Lemma jsonMatch_at_first_marker pre content post :
  ends_first (js "```json") pre ->
  includes (js "```") content = false ->
  jsonMatch (pre ++ tagged_block content ++ post) =
  Some {| before := pre; matched := tagged_block content;
          group1 := Some content; after := post |}.
Proof.
  intros Hpre Hc. apply jsonMatch_first_tagged.
  - now apply (ends_first_longer (js "```json") [LF]).
  - apply (ends_first_led (js "```") LF); [|exact Hc].
    cbv. intuition discriminate.
Qed.

(** Every fenced block begins with a triple backtick. *)
Lemma no_triple_backtick_no_block s :
  includes (js "```") s = false -> no_fenced_block s.
Proof.
  intros H b [content Hb] (pre & post & E).
  assert (Hs : substring (js "```") s).
  { destruct Hb as [-> | ->]; subst s.
    - exists pre, ([106; 115; 111; 110; LF] ++ content ++ fence_close ++ post).
      unfold tagged_block, tagged_open. now rewrite <- !app_assoc.
    - exists pre, ([LF] ++ content ++ fence_close ++ post).
      unfold untagged_block, untagged_open. now rewrite <- !app_assoc. }
  apply includes_substring in Hs. congruence.
Qed.

End MoreFacts.

(** * The claims of the specification *)

Import Scenario.

(** ** Response extractor *)

Lemma report_text_literal :
  report_text =
  js "Report:" ++ [LF] ++ js "```json" ++ [LF]
  ++ [123; 34] ++ js "kpIndex" ++ [34] ++ js ":5," ++ [34] ++ js "forecast"
  ++ [34] ++ js ":[]}" ++ [LF] ++ js "```".
Proof. reflexivity. Qed.

(** C1, as stated, fails: a text can contain a correctly tagged fenced block
    with valid JSON content and still yield "no data".  In
    [late_block_text] the valid block [{}] comes after an earlier tagged
    fence whose content does not parse; the extractor looks at the earlier
    one only and returns [null]. *)
Lemma extractJson_ignores_later_valid_block :
  substring (tagged_block (js "{}")) late_block_text
  /\ JSON_parse (js "{}") = Ret (JObj [])
  /\ extractJson late_block_text w0 = (Ret JNull, warned w0 SyntaxError)
  /\ fst (extractJson late_block_text w0) <> Ret (JObj []).
Proof.
  split; [|split; [|split]].
  - exists (tagged_block (js "oops") ++ [LF]), []. reflexivity.
  - reflexivity.
  - reflexivity.
  - discriminate.
Qed.

(** C1 (amended): when the first tagged opening fence of the text begins a
    fenced block whose content is valid JSON, [extractJson] returns the
    decoded content of that block, and logs nothing. *)
Theorem extractJson_first_tagged_block pre content post v w :
  ends_first tagged_open pre ->
  JSON_parse content = Ret v ->
  extractJson (pre ++ tagged_block content ++ post) w = (Ret v, w).
Proof.
  intros Hpre Hv.
  (* valid JSON holds no closing fence, so the lazy capture is [content] *)
  pose proof (valid_content_ends_first _ _ Hv) as Hc.
  rewrite (extractJson_located _ _ w (jsonMatch_first_tagged _ _ post Hpre Hc)).
  now apply decode_block_ok.
Qed.

(** The example of the specification: the report text decodes to
    [{kpIndex: 5, forecast: []}]. *)
Lemma extractJson_report_example :
  ends_first tagged_open (js "Report:" ++ [LF])
  /\ JSON_parse report_content = Ret report_value
  /\ extractJson report_text w0 = (Ret report_value, w0).
Proof.
  split; [reflexivity|]. split; [reflexivity|].
  apply (extractJson_first_tagged_block (js "Report:" ++ [LF]) report_content []
           report_value w0); reflexivity.
Defined.

(** C10: of two or more tagged blocks with valid JSON content, the earliest
    is the one decoded; what follows it is ignored. *)
Theorem extractJson_earliest_block pre c1 mid c2 post v1 v2 w :
  ends_first tagged_open pre ->
  JSON_parse c1 = Ret v1 ->
  JSON_parse c2 = Ret v2 ->
  extractJson (pre ++ tagged_block c1 ++ mid ++ tagged_block c2 ++ post) w
  = (Ret v1, w).
Proof.
  intros Hpre H1 _.
  pose proof (valid_content_ends_first _ _ H1) as Hc1.
  (* everything after the first block is the [after] of the match *)
  rewrite (extractJson_located _ _ w
             (jsonMatch_first_tagged pre c1 (mid ++ tagged_block c2 ++ post)
                Hpre Hc1)).
  cbn [element1 group1]. now apply decode_block_ok.
Qed.

Lemma extractJson_two_blocks_example :
  ends_first tagged_open []
  /\ JSON_parse (js "1") = Ret (int 1)
  /\ JSON_parse (js "2") = Ret (int 2)
  /\ extractJson two_blocks_text w0 = (Ret (int 1), w0).
Proof.
  split; [reflexivity|]. split; [reflexivity|]. split; [reflexivity|].
  apply (extractJson_earliest_block [] (js "1") [LF] (js "2") []
           (int 1) (int 2) w0); reflexivity.
Defined.

(** C3: when a text holds a tagged block and a trailing untagged block, the
    extractor decodes the content of a tagged block of the text, the one at
    the first tagged opening fence; the untagged block plays no part. *)
Theorem tagged_block_takes_precedence pre c1 mid c2 post w :
  let text := pre ++ tagged_block c1 ++ mid ++ untagged_block c2 ++ post in
  (exists pre' c' post',
      text = pre' ++ tagged_block c' ++ post'
      /\ extractJson text w = decode_block c' w)
  /\ (ends_first tagged_open pre -> ends_first fence_close c1 ->
      extractJson text w = decode_block c1 w).
Proof.
  intros text. split.
  - destruct (tagged_block_found pre c1 (mid ++ untagged_block c2 ++ post))
      as [m Hm].
    assert (Hj : jsonMatch text = Some m).
    { unfold jsonMatch, String_match. fold text in Hm. now rewrite Hm. }
    assert (Ht : text = before m ++ tagged_block (element1 m) ++ after m).
    { unfold String_match in Hm. fold text in Hm.
      rewrite tagged_fence_shape in Hm.
      apply exec_fence_sound in Hm as (c & Ht & _ & Hg).
      unfold element1, tagged_block. rewrite Hg, Ht at 1.
      now rewrite <- !app_assoc. }
    exists (before m), (element1 m), (after m). split; [exact Ht|].
    now apply extractJson_located.
  - intros Hpre Hc1. subst text.
    now rewrite (extractJson_located _ _ w (jsonMatch_first_tagged _ _ _ Hpre Hc1)).
Qed.

Lemma tagged_block_precedence_example :
  ends_first tagged_open (js "Log")
  /\ ends_first fence_close (js "1")
  /\ extractJson mixed_text w0 = decode_block (js "1") w0
  /\ extractJson mixed_text w0 = (Ret (int 1), w0).
Proof.
  split; [reflexivity|]. split; [reflexivity|]. split; [|reflexivity].
  apply (proj2 (tagged_block_takes_precedence (js "Log") (js "1") [LF] (js "2") [] w0));
    reflexivity.
Defined.

(** C2, as stated, fails: a text can contain a fenced block whose content
    does not parse and still yield data.  In [early_block_text] the block
    [oops] comes after a tagged block with valid content; the extractor
    looks at the earlier one only and returns [1], without a warning. *)
Lemma extractJson_overlooks_later_bad_block :
  is_fenced_block (tagged_block (js "oops"))
  /\ substring (tagged_block (js "oops")) early_block_text
  /\ JSON_parse (js "oops") = Throw SyntaxError
  /\ extractJson early_block_text w0 = (Ret (int 1), w0)
  /\ fst (extractJson early_block_text w0) <> Ret JNull.
Proof.
  split; [|split; [|split; [|split]]].
  - eexists; left; reflexivity.
  - exists (tagged_block (js "1") ++ [LF]), []. reflexivity.
  - reflexivity.
  - reflexivity.
  - discriminate.
Qed.

(** C2 (amended): [extractJson] never raises.  For every text it returns;
    with no fenced block in the text it returns [null] and leaves the
    console alone; and whenever the content of the one block it locates
    fails to parse, the [SyntaxError] is caught, a warning is logged and
    [null] is returned.  The block it locates is the one at the first
    tagged opening fence, and, in a text without a tagged opening fence,
    the one at the first untagged opening fence. *)
Theorem extractJson_never_raises text w :
  (exists v w', extractJson text w = (Ret v, w'))
  /\ (no_fenced_block text -> extractJson text w = (Ret JNull, w))
  /\ (forall m, jsonMatch text = Some m ->
        (text = before m ++ tagged_block (element1 m) ++ after m
         \/ text = before m ++ untagged_block (element1 m) ++ after m)
        /\ forall e, JSON_parse (element1 m) = Throw e ->
             extractJson text w = (Ret JNull, warned w e))
  /\ (forall pre content post e,
        text = pre ++ tagged_block content ++ post ->
        ends_first tagged_open pre ->
        ends_first fence_close content ->
        JSON_parse content = Throw e ->
        extractJson text w = (Ret JNull, warned w e))
  /\ (forall pre content post e,
        text = pre ++ untagged_block content ++ post ->
        includes tagged_open text = false ->
        ends_first untagged_open pre ->
        ends_first fence_close content ->
        JSON_parse content = Throw e ->
        extractJson text w = (Ret JNull, warned w e)).
Proof.
  split; [|split; [|split; [|split]]].
  - apply extractJson_returns.
  - intros H. apply extractJson_no_match. now apply no_fenced_block_no_match.
  - intros m E. split; [now apply jsonMatch_sound|].
    intros e He. rewrite (extractJson_located _ _ w E).
    now apply decode_block_fail.
  - intros pre content post e -> Hpre Hc He.
    rewrite (extractJson_located _ _ w (jsonMatch_first_tagged _ _ post Hpre Hc)).
    now apply decode_block_fail.
  - intros pre content post e -> Hno Hpre Hc He.
    rewrite (extractJson_located _ _ w
               (jsonMatch_first_untagged _ _ post Hno Hpre Hc)).
    now apply decode_block_fail.
Qed.

Lemma extractJson_never_raises_example :
  extractJson plain_text w0 = (Ret JNull, w0)
  /\ extractJson (tagged_block (js "oops")) w0 = (Ret JNull, warned w0 SyntaxError)
  /\ extractJson late_block_text w0 = (Ret JNull, warned w0 SyntaxError)
  /\ extractJson (js "Log" ++ [LF] ++ untagged_block (js "oops")) w0
     = (Ret JNull, warned w0 SyntaxError).
Proof.
  split; [|split; [|split]].
  - apply (proj1 (proj2 (extractJson_never_raises plain_text w0))).
    apply jsonMatch_none. reflexivity.
  - apply (proj1 (proj2 (proj2 (extractJson_never_raises
                                  (tagged_block (js "oops")) w0)))
             {| before := []; matched := tagged_block (js "oops");
                group1 := Some (js "oops"); after := [] |});
      reflexivity.
  - apply (proj1 (proj2 (proj2 (proj2 (extractJson_never_raises
                                         late_block_text w0))))
             [] (js "oops") ([LF] ++ tagged_block (js "{}")) SyntaxError);
      reflexivity.
  - apply (proj2 (proj2 (proj2 (proj2 (extractJson_never_raises
                                         (js "Log" ++ [LF] ++ untagged_block (js "oops"))
                                         w0))))
             (js "Log" ++ [LF]) (js "oops") [] SyntaxError);
      reflexivity.
Defined.

(** C5, as stated, fails: nothing checks the shape of what was decoded.  A
    reply whose tagged block holds [42] gives the forecast flow the data
    [42], which is not [null] and is no WeatherReport. *)
Lemma fetchSpaceWeather_data_of_any_shape :
  exists r,
    fetchSpaceWeather live_env (replying scalar_text) reykjavik w0 = (Ret r, w0)
    /\ extractJson scalar_text w0 = (Ret (data r), w0)
    /\ data r = JNum (inject_Z 42)
    /\ data r <> JNull
    /\ conforms_WeatherReport (data r) = false.
Proof.
  eexists. split; [reflexivity|]. cbn [data].
  split; [reflexivity|]. split; [reflexivity|]. split; [discriminate|reflexivity].
Qed.

(** C5 (amended): every outcome of the extraction other than [null] is the
    value [JSON.parse] decodes from the content of a fenced block of the
    text, tagged or untagged, whatever its shape. *)
Theorem extraction_outcome_is_decoded_block text w v w' :
  extractJson text w = (Ret v, w') ->
  v <> JNull ->
  exists pre content post,
    (text = pre ++ tagged_block content ++ post
     \/ text = pre ++ untagged_block content ++ post)
    /\ JSON_parse content = Ret v.
Proof.
  intros H Hv. destruct (jsonMatch text) as [m|] eqn:E.
  - exists (before m), (element1 m), (after m).
    split; [now apply jsonMatch_sound|].
    rewrite (extractJson_located _ _ w E) in H.
    destruct (JSON_parse (element1 m)) as [v1|e] eqn:P.
    + rewrite (decode_block_ok _ _ _ P) in H. congruence.
    + rewrite (decode_block_fail _ _ _ P) in H. congruence.
  - rewrite (extractJson_no_match _ w E) in H. congruence.
Qed.

Lemma extraction_outcome_example :
  exists pre content post,
    (scalar_text = pre ++ tagged_block content ++ post
     \/ scalar_text = pre ++ untagged_block content ++ post)
    /\ JSON_parse content = Ret (JNum (inject_Z 42)).
Proof.
  apply (extraction_outcome_is_decoded_block scalar_text w0 (JNum (inject_Z 42)) w0).
  - reflexivity.
  - discriminate.
Defined.

(** ** Forecast fetcher *)

(** C4, as stated, fails: only the first tagged region is removed.  A reply
    with two tagged blocks keeps the second one whole in [rawText], and the
    extractor recognises it there. *)
Lemma rawText_keeps_second_block :
  exists r,
    fetchSpaceWeather live_env (replying two_blocks_text) reykjavik w0 = (Ret r, w0)
    /\ is_fenced_block (tagged_block (js "2"))
    /\ substring (tagged_block (js "2")) two_blocks_text
    /\ rawText r = tagged_block (js "2")
    /\ substring (tagged_block (js "2")) (rawText r)
    /\ extractJson (rawText r) w0 = (Ret (int 2), w0).
Proof.
  eexists. split; [reflexivity|]. cbn [rawText].
  split; [eexists; left; reflexivity|].
  split; [exists (tagged_block (js "1") ++ [LF]), []; reflexivity|].
  split; [reflexivity|].
  split; [exists [], []; reflexivity|reflexivity].
Qed.

(** The stripping pattern and the patterns of the extractor disagree on
    what a block is: an untagged block is decoded by the extractor and
    left in [rawText] untouched. *)
Example rawText_keeps_untagged_block :
  exists r,
    fetchSpaceWeather live_env (replying untagged_text) reykjavik w0 = (Ret r, w0)
    /\ data r = int 7
    /\ rawText r = untagged_text
    /\ substring (untagged_block (js "7")) (rawText r).
Proof.
  eexists. split; [reflexivity|]. cbn [data rawText].
  split; [reflexivity|]. split; [reflexivity|].
  exists (js "Log" ++ [LF]), []. reflexivity.
Qed.

(** C4 (amended): when the first [```json] marker of the provider's reply
    opens a tagged block whose content holds no triple backtick, that block
    is the one the extractor decodes into [data], and [rawText] is the
    reply with that block cut out, trimmed; so [rawText] holds no fenced
    block, tagged or untagged, other than those of the text around the
    block.  Blocks after the first are left in place. *)
Theorem rawText_strips_first_tagged_block e p coords w resp pre content post :
  missing (API_KEY e) = false ->
  generateContent p (client e) (weather_request coords) = Ret resp ->
  text resp = Some (pre ++ tagged_block content ++ post) ->
  ends_first (js "```json") pre ->
  includes (js "```") content = false ->
  exists r w',
    fetchSpaceWeather e p coords w = (Ret r, w')
    /\ decode_block content w = (Ret (data r), w')
    /\ rawText r = trim (pre ++ post)
    /\ (forall b, is_fenced_block b ->
          ~ substring b (pre ++ post) -> ~ substring b (rawText r)).
Proof.
  intros Hkey Hresp Htext Hpre Hc.
  destruct (fetchSpaceWeather_live_ok e p coords w resp Hkey Hresp)
    as (v & w' & Hv & Hfetch).
  eexists. exists w'. split; [exact Hfetch|]. cbn [data rawText].
  rewrite Htext in *. cbn [text_or_empty] in *.
  rewrite (extractJson_located _ _ w
             (jsonMatch_at_first_marker _ _ post Hpre Hc)) in Hv.
  split; [exact Hv|].
  rewrite (narrative_first_tagged_block _ _ _ Hpre Hc).
  split; [reflexivity|]. intros b _ Hout Hin. apply Hout.
  eapply substring_trans; [exact Hin|apply trim_substring].
Qed.

Lemma rawText_report_example :
  exists r w',
    fetchSpaceWeather live_env (replying quoting_text) reykjavik w0 = (Ret r, w')
    /\ data r = report_value
    /\ rawText r = js "Kp `5` now:"
    /\ forall b, is_fenced_block b -> ~ substring b (rawText r).
Proof.
  destruct (rawText_strips_first_tagged_block live_env
              (replying quoting_text) reykjavik w0 quoting_reply
              (js "Kp `5` now:" ++ [LF]) report_content [LF]
              eq_refl eq_refl eq_refl eq_refl eq_refl)
    as (r & w' & Hfetch & Hdata & Hraw & Hnone).
  exists r, w'. split; [exact Hfetch|].
  split; [now injection Hdata|]. split; [exact Hraw|].
  intros b Hb. apply (Hnone b Hb).
  now apply (no_triple_backtick_no_block (js "Kp `5` now:" ++ [LF; LF])).
Defined.

(** The example of the specification: the narrative of the report text is
    [Report:]. *)
Example rawText_of_report :
  narrative report_text = js "Report:".
Proof. reflexivity. Qed.

(** C9: in live mode a rejected provider call rejects the whole fetch with
    the same error, after logging it; a reply whose block does not parse
    (or that has no block) resolves with [data = null]; and a fetch whose
    provider call succeeded never rejects. *)
Theorem fetchSpaceWeather_failure_tiers e p coords w :
  missing (API_KEY e) = false ->
  (forall err,
      generateContent p (client e) (weather_request coords) = Throw err ->
      fetchSpaceWeather e p coords w =
      (Throw err, errored w "Error fetching space weather:" err))
  /\ (forall resp,
        generateContent p (client e) (weather_request coords) = Ret resp ->
        (exists r w', fetchSpaceWeather e p coords w = (Ret r, w'))
        /\ (no_valid_block (text_or_empty (text resp)) ->
            exists r w', fetchSpaceWeather e p coords w = (Ret r, w')
                         /\ data r = JNull)).
Proof.
  intros Hkey. split.
  - intros err Herr. now apply fetchSpaceWeather_live_fail.
  - intros resp Hresp.
    destruct (fetchSpaceWeather_live_ok e p coords w resp Hkey Hresp)
      as (v & w' & Hv & Hfetch).
    split; [eauto|]. intros Hnone.
    destruct (no_valid_block_null _ w Hnone) as [w'' Hnull].
    rewrite Hnull in Hv. injection Hv as <- <-.
    eexists. eexists. split; [exact Hfetch|reflexivity].
Qed.

Lemma fetchSpaceWeather_failure_example :
  fetchSpaceWeather live_env (failing RateLimited) reykjavik w0 =
  (Throw (ProviderError RateLimited),
   errored w0 "Error fetching space weather:" (ProviderError RateLimited)).
Proof.
  apply (proj1 (fetchSpaceWeather_failure_tiers live_env (failing RateLimited)
                  reykjavik w0 eq_refl)).
  reflexivity.
Defined.

(** C6: without a credential, for every coordinates and whatever the
    provider would do, the fetch resolves, after a delay of 1500 ms, to the
    fixed demonstration result: the mock report, which has the WeatherReport
    shape, meets the constraints of the data model and carries the location
    name "Simulated Sector (Demo)", and one citation whose title contains
    "Simulated". *)
Theorem fallback_forecast e p coords w :
  missing (API_KEY e) = true ->
  exists w',
    fetchSpaceWeather e p coords w =
      (Ret {| data := MOCK_WEATHER_DATA e;
              rawText := MOCK_summary;
              sources := [MOCK_SOURCE] |}, w')
    /\ waited_ms w' = waited_ms w + 1500
    /\ waited_ms w < waited_ms w'
    /\ history w' = history w
    /\ conforms_WeatherReport (MOCK_WEATHER_DATA e) = true
    /\ schema_valid (MOCK_WEATHER_DATA e) = true
    /\ get "locationName" (MOCK_WEATHER_DATA e) = Some (str "Simulated Sector (Demo)")
    /\ option_map (includes (js "Simulated")) (title MOCK_SOURCE) = Some true.
Proof.
  intros Hkey. unfold fetchSpaceWeather, bind, getAI. rewrite Hkey.
  eexists. split; [reflexivity|]. cbn [waited_ms history].
  repeat split. lia.
Qed.

Lemma fallback_forecast_reykjavik :
  exists w',
    fetchSpaceWeather demo_env (failing NetworkError) reykjavik w0 =
      (Ret {| data := MOCK_WEATHER_DATA demo_env;
              rawText := MOCK_summary;
              sources := [MOCK_SOURCE] |}, w')
    /\ waited_ms w' = waited_ms w0 + 1500
    /\ waited_ms w0 < waited_ms w'
    /\ history w' = history w0
    /\ conforms_WeatherReport (MOCK_WEATHER_DATA demo_env) = true
    /\ schema_valid (MOCK_WEATHER_DATA demo_env) = true
    /\ get "locationName" (MOCK_WEATHER_DATA demo_env) = Some (str "Simulated Sector (Demo)")
    /\ option_map (includes (js "Simulated")) (title MOCK_SOURCE) = Some true.
Proof.
  apply (fallback_forecast demo_env (failing NetworkError) reykjavik w0).
  reflexivity.
Defined.

(** ** Photo advisor *)

(** C8, as stated, fails: the structure of what was decoded is never
    looked at, so malformed structure is not collapsed to [null].  A reply
    that is the JSON text [42], and a reply whose tagged block holds [{}],
    give the component [42] and an empty object for a PhotoAnalysis. *)
Lemma analyzeSkyPhoto_returns_malformed_structure :
  analyzeSkyPhoto live_env (replying scalar_reply_text) (js "aGk=") (js "Smartphone") w0
    = (Ret (int 42), w0)
  /\ Props.conforms_PhotoAnalysis (int 42) = false
  /\ analyzeSkyPhoto live_env (replying empty_object_text) (js "aGk=") (js "Smartphone") w0
     = (Ret (JObj []), w0)
  /\ Props.conforms_PhotoAnalysis (JObj []) = false
  /\ fst (analyzeSkyPhoto live_env (replying empty_object_text)
            (js "aGk=") (js "Smartphone") w0) <> Ret JNull.
Proof.
  split; [reflexivity|]. split; [reflexivity|]. split; [reflexivity|].
  split; [reflexivity|discriminate].
Qed.

(** C8 (amended): [analyzeSkyPhoto] never raises.  In live mode a rejected
    provider call is logged and becomes [null]; a reply that is not JSON as
    a whole and has no fenced block with valid content becomes [null] as
    well.  A reply that is JSON as a whole is returned as decoded, and any
    other reply gives what the extractor makes of it: the structure of the
    decoded value is not checked. *)
Theorem analyzeSkyPhoto_collapses_failures e p image device w :
  (exists v w', analyzeSkyPhoto e p image device w = (Ret v, w'))
  /\ (missing (API_KEY e) = false ->
      (forall err,
          generateContent p (client e) (photo_request image device) = Throw err ->
          analyzeSkyPhoto e p image device w =
          (Ret JNull, errored w "Error analyzing photo:" err))
      /\ (forall resp err,
            generateContent p (client e) (photo_request image device) = Ret resp ->
            JSON_parse (text_or_empty (text resp)) = Throw err ->
            no_valid_block (text_or_empty (text resp)) ->
            exists w', analyzeSkyPhoto e p image device w = (Ret JNull, w'))
      /\ (forall resp v,
            generateContent p (client e) (photo_request image device) = Ret resp ->
            JSON_parse (text_or_empty (text resp)) = Ret v ->
            analyzeSkyPhoto e p image device w = (Ret v, w))
      /\ (forall resp err,
            generateContent p (client e) (photo_request image device) = Ret resp ->
            JSON_parse (text_or_empty (text resp)) = Throw err ->
            analyzeSkyPhoto e p image device w
            = extractJson (text_or_empty (text resp)) w)).
Proof.
  unfold analyzeSkyPhoto, bind, getAI.
  destruct (missing (API_KEY e)) eqn:Hkey.
  - split; [do 2 eexists; reflexivity|discriminate].
  - cbn [ret]. unfold try_catch, bind, lift.
    destruct (generateContent p (client e) (photo_request image device))
      as [resp|err] eqn:Hresp.
    + destruct (JSON_parse (text_or_empty (text resp))) as [v|perr] eqn:Hparse.
      * split; [do 2 eexists; reflexivity|]. intros _.
        split; [discriminate|]. split; [|split].
        -- intros resp' err' [= <-]. congruence.
        -- intros resp' v' [= <-]. rewrite Hparse. now intros [= <-].
        -- intros resp' err' [= <-]. congruence.
      * destruct (extractJson_returns (text_or_empty (text resp)) w)
          as (v & w' & Hv).
        rewrite Hv. split; [do 2 eexists; reflexivity|].
        intros _. split; [discriminate|]. split; [|split].
        -- intros resp' err' [= <-] _ Hnone.
           destruct (no_valid_block_null _ w Hnone) as [w'' Hnull].
           rewrite Hnull in Hv. injection Hv as <- <-. eexists; reflexivity.
        -- intros resp' v' [= <-]. congruence.
        -- intros resp' err' [= <-] _. now rewrite Hv.
    + split; [do 2 eexists; reflexivity|]. intros _.
      split; [|split; [|split]]; try discriminate.
      intros err' [= <-]. reflexivity.
Qed.

Lemma analyzeSkyPhoto_failure_example :
  analyzeSkyPhoto live_env (failing AuthFailure) (js "aGk=") (js "Smartphone") w0 =
  (Ret JNull, errored w0 "Error analyzing photo:" (ProviderError AuthFailure))
  /\ exists w',
       analyzeSkyPhoto live_env (replying plain_text) (js "aGk=") (js "Smartphone") w0
       = (Ret JNull, w').
Proof.
  split.
  - apply (proj1 (proj2 (analyzeSkyPhoto_collapses_failures live_env
                           (failing AuthFailure) (js "aGk=") (js "Smartphone") w0)
                    eq_refl)).
    reflexivity.
  - apply (proj1 (proj2 (proj2 (analyzeSkyPhoto_collapses_failures live_env
                                  (replying plain_text) (js "aGk=") (js "Smartphone") w0)
                           eq_refl))
             {| text := Some plain_text; groundingChunks := None |} SyntaxError).
    + reflexivity.
    + reflexivity.
    + apply no_fenced_block_no_valid, jsonMatch_none. reflexivity.
Defined.

(** ** Chat session *)

(** A live session, by contrast, does change the conversation the provider
    keeps. *)
Example live_send_records_turns :
  sendMessage (replying []) (LiveChat (client live_env) GEMINI_MODEL []) (js "hi") w0
  = (Ret {| reply_text := js "ok" |},
     {| console := []; waited_ms := 0;
        history := [(User, js "hi"); (Model, js "ok")] |}).
Proof. reflexivity. Qed.

(** C7: without a credential, the handle [createChatSession] returns
    answers every message with the same fixed text, so two different
    messages get equal results, and sending leaves the world (console,
    timers, conversation history) exactly as it was. *)
Theorem demo_chat_send e p w message1 message2 w1 :
  missing (API_KEY e) = true ->
  exists s w',
    createChatSession e w = (Ret s, w')
    /\ history w' = history w
    /\ sendMessage p s message1 w1 = (Ret {| reply_text := DEMO_CHAT_TEXT |}, w1)
    /\ sendMessage p s message1 w1 = sendMessage p s message2 w1.
Proof.
  intros Hkey. unfold createChatSession, bind, getAI. rewrite Hkey.
  eexists. eexists. split; [reflexivity|]. repeat split.
Qed.

Lemma demo_chat_send_example :
  exists s w',
    createChatSession demo_env w0 = (Ret s, w')
    /\ history w' = history w0
    /\ sendMessage (replying []) s (js "Will I see aurora?") w0
       = (Ret {| reply_text := DEMO_CHAT_TEXT |}, w0)
    /\ sendMessage (replying []) s (js "Will I see aurora?") w0
       = sendMessage (replying []) s (js "What ISO?") w0.
Proof.
  apply (demo_chat_send demo_env (replying []) w0
           (js "Will I see aurora?") (js "What ISO?") w0).
  reflexivity.
Defined.

(** * Further properties of the service *)

Import Cases.

(** ** Extractor *)

(** X1: the untagged pattern is the fallback.  In a text without any tagged
    opening fence, valid JSON content at the first untagged fence is what
    [extractJson] returns. *)
Theorem extractJson_untagged_fallback pre content post v w :
  includes tagged_open (pre ++ untagged_block content ++ post) = false ->
  ends_first untagged_open pre ->
  JSON_parse content = Ret v ->
  extractJson (pre ++ untagged_block content ++ post) w = (Ret v, w).
Proof.
  intros Hno Hpre Hv.
  pose proof (valid_content_ends_first _ _ Hv) as Hc.
  rewrite (extractJson_located _ _ w
             (jsonMatch_first_untagged _ _ _ Hno Hpre Hc)).
  now apply decode_block_ok.
Qed.

Lemma extractJson_untagged_fallback_example :
  extractJson untagged_text w0 = (Ret (int 7), w0).
Proof.
  apply (extractJson_untagged_fallback (js "Log" ++ [LF]) (js "7") []
           (int 7) w0); reflexivity.
Defined.

(** X2: a parse failure at the first tagged block is final.  Whatever comes
    after that block, further blocks with valid content included, the
    result is [null] with one warning: no other block is tried, and the
    untagged pattern is not consulted. *)
Theorem extractJson_failure_is_final pre content post e w :
  ends_first tagged_open pre ->
  ends_first fence_close content ->
  JSON_parse content = Throw e ->
  extractJson (pre ++ tagged_block content ++ post) w = (Ret JNull, warned w e).
Proof.
  intros Hpre Hc He.
  rewrite (extractJson_located _ _ w (jsonMatch_first_tagged _ _ post Hpre Hc)).
  now apply decode_block_fail.
Qed.

Lemma extractJson_failure_is_final_example :
  extractJson (tagged_block (js "oops") ++ [LF] ++ untagged_block (js "7")) w0
  = (Ret JNull, warned w0 SyntaxError).
Proof.
  apply (extractJson_failure_is_final [] (js "oops")
           ([LF] ++ untagged_block (js "7")) SyntaxError w0); reflexivity.
Defined.

(** ** Forecast fetcher, live mode *)

(** X3: whenever the provider answers, [rawText] neither starts nor ends
    with white space, and trimming it again changes nothing. *)
Theorem rawText_is_trimmed e p coords w resp :
  missing (API_KEY e) = false ->
  generateContent p (client e) (weather_request coords) = Ret resp ->
  exists r w',
    fetchSpaceWeather e p coords w = (Ret r, w')
    /\ Props.no_outer_space (rawText r)
    /\ trim (rawText r) = rawText r.
Proof.
  intros Hkey Hresp.
  destruct (fetchSpaceWeather_live_ok e p coords w resp Hkey Hresp)
    as (v & w' & _ & Hfetch).
  eexists. exists w'. split; [exact Hfetch|]. cbn [rawText]. unfold narrative.
  split; [apply trim_no_outer_space|apply trim_fixed, trim_no_outer_space].
Qed.

Lemma rawText_is_trimmed_example :
  exists r w',
    fetchSpaceWeather with_key (answering grounded_reply) tromso w0 = (Ret r, w')
    /\ Props.no_outer_space (rawText r)
    /\ trim (rawText r) = rawText r.
Proof.
  apply (rawText_is_trimmed with_key (answering grounded_reply) tromso w0
           grounded_reply); reflexivity.
Defined.

(** X4: a reply without the marker [```json] is surfaced whole: [rawText]
    is the reply text trimmed, untagged blocks included. *)
Theorem rawText_without_tagged_marker e p coords w resp :
  missing (API_KEY e) = false ->
  generateContent p (client e) (weather_request coords) = Ret resp ->
  includes (js "```json") (text_or_empty (text resp)) = false ->
  exists r w',
    fetchSpaceWeather e p coords w = (Ret r, w')
    /\ rawText r = trim (text_or_empty (text resp)).
Proof.
  intros Hkey Hresp Hno.
  destruct (fetchSpaceWeather_live_ok e p coords w resp Hkey Hresp)
    as (v & w' & _ & Hfetch).
  eexists. exists w'. split; [exact Hfetch|]. cbn [rawText].
  now apply narrative_no_marker.
Qed.

Lemma rawText_without_tagged_marker_example :
  exists r w',
    fetchSpaceWeather with_key (answering grounded_reply) tromso w0 = (Ret r, w')
    /\ rawText r = js "Quiet night.".
Proof.
  apply (rawText_without_tagged_marker with_key (answering grounded_reply) tromso
           w0 grounded_reply); reflexivity.
Defined.

(** X5: the citations follow the grounding chunks.  There are as many
    sources as chunks with a web reference, a source is listed exactly when
    some chunk carries its uri and title, and a reply without grounding
    metadata has no sources. *)
Theorem live_sources_follow_chunks e p coords w resp :
  missing (API_KEY e) = false ->
  generateContent p (client e) (weather_request coords) = Ret resp ->
  exists r w',
    fetchSpaceWeather e p coords w = (Ret r, w')
    /\ (groundingChunks resp = None -> sources r = [])
    /\ (forall cs, groundingChunks resp = Some cs ->
          List.length (sources r) = List.length (filter Props.has_web cs)
          /\ forall s, In s (sources r) <->
               exists wr, In {| web := Some wr |} cs
                          /\ s = {| uri := web_uri wr; title := web_title wr |}).
Proof.
  intros Hkey Hresp.
  destruct (fetchSpaceWeather_live_ok e p coords w resp Hkey Hresp)
    as (v & w' & _ & Hfetch).
  eexists. exists w'. split; [exact Hfetch|]. cbn [sources]. split.
  - now intros ->.
  - intros cs ->. split; [apply mapSources_length|apply mapSources_In].
Qed.

Lemma live_sources_example :
  exists r w',
    fetchSpaceWeather with_key (answering grounded_reply) tromso w0 = (Ret r, w')
    /\ List.length (sources r) = 2%nat.
Proof.
  destruct (live_sources_follow_chunks with_key (answering grounded_reply) tromso
              w0 grounded_reply eq_refl eq_refl)
    as (r & w' & Hfetch & _ & Hcs).
  exists r, w'. split; [exact Hfetch|].
  exact (proj1 (Hcs _ eq_refl)).
Defined.

(** X6: a reply without text (or with empty text) still resolves: no data,
    empty narrative, and nothing on the console. *)
Theorem live_fetch_without_text e p coords w resp :
  missing (API_KEY e) = false ->
  generateContent p (client e) (weather_request coords) = Ret resp ->
  text_or_empty (text resp) = [] ->
  exists srcs,
    fetchSpaceWeather e p coords w =
    (Ret {| data := JNull; rawText := []; sources := srcs |}, w).
Proof.
  intros Hkey Hresp Hempty.
  destruct (fetchSpaceWeather_live_ok e p coords w resp Hkey Hresp)
    as (v & w' & Hv & Hfetch).
  rewrite Hempty in Hv, Hfetch. cbn in Hv. injection Hv as <- <-.
  eexists. exact Hfetch.
Qed.

Lemma live_fetch_without_text_example :
  exists srcs,
    fetchSpaceWeather with_key (answering silent_reply) tromso w0 =
    (Ret {| data := JNull; rawText := []; sources := srcs |}, w0).
Proof.
  apply (live_fetch_without_text with_key (answering silent_reply) tromso w0
           silent_reply); reflexivity.
Defined.

(** An empty API key is a missing key.  With [API_KEY] set to the empty
    string the three entry points behave exactly as with no key at all. *)
Theorem empty_key_is_demo_mode t p coords image device w :
  let empty := {| API_KEY := Some []; load_time_iso := t |} in
  let absent := {| API_KEY := None; load_time_iso := t |} in
  fetchSpaceWeather empty p coords w = fetchSpaceWeather absent p coords w
  /\ analyzeSkyPhoto empty p image device w = analyzeSkyPhoto absent p image device w
  /\ createChatSession empty w = createChatSession absent w
  /\ createChatSession empty w =
     (Ret DemoChat,
      snd (console_warn "API Key not found. Falling back to Demo Mode." None w)).
Proof. repeat split. Qed.

(** ** Photo advisor *)

(** X7: when the whole reply is JSON, the photo advisor returns its decoded
    value and logs nothing; the fenced-block extractor is not involved. *)
Theorem analyzeSkyPhoto_direct_json e p image device w resp v :
  missing (API_KEY e) = false ->
  generateContent p (client e) (photo_request image device) = Ret resp ->
  JSON_parse (text_or_empty (text resp)) = Ret v ->
  analyzeSkyPhoto e p image device w = (Ret v, w).
Proof.
  intros Hkey Hresp Hv.
  now rewrite (analyzeSkyPhoto_live_ok _ _ _ _ _ _ Hkey Hresp), Hv.
Qed.

Lemma analyzeSkyPhoto_direct_json_example :
  analyzeSkyPhoto with_key (answering bare_reply) (js "AAAA") (js "Smartphone") w0
  = (Ret photo_value, w0).
Proof.
  apply (analyzeSkyPhoto_direct_json with_key (answering bare_reply) (js "AAAA")
           (js "Smartphone") w0 bare_reply photo_value); reflexivity.
Defined.

(** X8: when the reply wraps the JSON in a tagged fenced block, the direct
    parse necessarily fails (a text with a fence is never JSON) and the
    photo advisor returns the decoded content of the block at the first
    tagged fence. *)
Theorem analyzeSkyPhoto_fenced_reply e p image device w resp pre content post v :
  missing (API_KEY e) = false ->
  generateContent p (client e) (photo_request image device) = Ret resp ->
  text resp = Some (pre ++ tagged_block content ++ post) ->
  ends_first tagged_open pre ->
  JSON_parse content = Ret v ->
  (exists err, JSON_parse (pre ++ tagged_block content ++ post) = Throw err)
  /\ analyzeSkyPhoto e p image device w = (Ret v, w).
Proof.
  intros Hkey Hresp Htext Hpre Hv.
  assert (Hwhole : exists err,
             JSON_parse (pre ++ tagged_block content ++ post) = Throw err).
  { unfold tagged_block.
    replace (pre ++ (tagged_open ++ content ++ fence_close) ++ post)
      with ((pre ++ tagged_open ++ content) ++ fence_close ++ post)
      by now rewrite <- !app_assoc.
    apply fenced_text_is_not_json. }
  split; [exact Hwhole|]. destruct Hwhole as [err Herr].
  rewrite (analyzeSkyPhoto_live_ok _ _ _ _ _ _ Hkey Hresp), Htext.
  cbn [text_or_empty]. rewrite Herr.
  pose proof (valid_content_ends_first _ _ Hv) as Hc.
  rewrite (extractJson_located _ _ w (jsonMatch_first_tagged _ _ post Hpre Hc)).
  now apply decode_block_ok.
Qed.

Lemma analyzeSkyPhoto_fenced_reply_example :
  analyzeSkyPhoto with_key (answering wrapped_reply) (js "AAAA") (js "Smartphone") w0
  = (Ret photo_value, w0).
Proof.
  apply (proj2 (analyzeSkyPhoto_fenced_reply with_key (answering wrapped_reply)
                  (js "AAAA") (js "Smartphone") w0 wrapped_reply
                  (js "Here you go:" ++ [LF]) photo_json ([LF] ++ js "Enjoy!")
                  photo_value eq_refl eq_refl eq_refl eq_refl eq_refl)).
Defined.

(** X9: without a credential the photo advisor resolves, after a delay of
    2000 ms and for every image and device, to the mock analysis, which has
    the PhotoAnalysis shape and a checklist of three items; the provider is
    not called. *)
Theorem analyzeSkyPhoto_demo e p image device w :
  missing (API_KEY e) = true ->
  exists w',
    analyzeSkyPhoto e p image device w = (Ret MOCK_PHOTO_ANALYSIS, w')
    /\ waited_ms w' = waited_ms w + 2000
    /\ history w' = history w
    /\ Props.conforms_PhotoAnalysis MOCK_PHOTO_ANALYSIS = true
    /\ exists items, get "checklist" MOCK_PHOTO_ANALYSIS = Some (JArr items)
                     /\ List.length items = 3%nat.
Proof.
  intros Hkey. unfold analyzeSkyPhoto, bind, getAI. rewrite Hkey.
  eexists. split; [reflexivity|]. cbn [waited_ms history].
  repeat split. eexists. split; reflexivity.
Qed.

Lemma analyzeSkyPhoto_demo_example :
  exists w',
    analyzeSkyPhoto no_key down (js "AAAA") (js "Action Camera") w0
    = (Ret MOCK_PHOTO_ANALYSIS, w')
    /\ waited_ms w' = waited_ms w0 + 2000
    /\ history w' = history w0
    /\ Props.conforms_PhotoAnalysis MOCK_PHOTO_ANALYSIS = true
    /\ exists items, get "checklist" MOCK_PHOTO_ANALYSIS = Some (JArr items)
                     /\ List.length items = 3%nat.
Proof.
  apply (analyzeSkyPhoto_demo no_key down (js "AAAA") (js "Action Camera") w0).
  reflexivity.
Defined.

(** * Properties of the components *)

(** ** App.tsx *)

Section AppFacts.

(** [loadWeatherData] in terms of what the fetch settles to. *)
Lemma loadWeatherData_eq e p coords st w :
  App.loadWeatherData e p coords st w =
  match fetchSpaceWeather e p coords w with
  | (Ret r, w') =>
      (Ret tt,
       App.setLoading false
         (App.setSources (sources r)
            (App.setRawText (rawText r)
               (App.setWeatherData (data r) (App.setLoading true st)))),
       w')
  | (Throw err, w') =>
      (Ret tt,
       App.setLoading false
         (App.setRawText App.UNABLE_TO_FETCH (App.setLoading true st)),
       errored w' "Failed to load weather data" err)
  end.
Proof.
  unfold App.loadWeatherData, UI.bind, UI.try_finally, UI.try_catch, UI.call,
    UI.set.
  destruct (fetchSpaceWeather e p coords w) as [[r|err] w']; reflexivity.
Qed.

End AppFacts.

(** X10: a load always settles.  Whatever the mode, the provider and the
    previous state, [loadWeatherData] returns without an exception and
    leaves [loading] false; location, view, units and location error are
    untouched. *)
Theorem loadWeatherData_settles e p coords st w :
  exists st' w',
    App.loadWeatherData e p coords st w = (Ret tt, st', w')
    /\ App.loading st' = false
    /\ App.location st' = App.location st
    /\ App.currentView st' = App.currentView st
    /\ App.unitSystem st' = App.unitSystem st
    /\ App.locationError st' = App.locationError st.
Proof.
  rewrite loadWeatherData_eq.
  destruct (fetchSpaceWeather e p coords w) as [[r|err] w'];
    do 2 eexists; repeat split.
Qed.

(** X11: a failed load keeps the previous report.  When the provider call
    is rejected, the narrative becomes the apology text while the weather
    data and the sources stay what they were; the error is logged twice,
    by the service and by the app. *)
Theorem failed_load_keeps_previous_data e p coords st w err :
  missing (API_KEY e) = false ->
  generateContent p (client e) (weather_request coords) = Throw err ->
  exists st',
    App.loadWeatherData e p coords st w =
      (Ret tt, st',
       errored (errored w "Error fetching space weather:" err)
         "Failed to load weather data" err)
    /\ App.rawText st' = App.UNABLE_TO_FETCH
    /\ App.weatherData st' = App.weatherData st
    /\ App.sources st' = App.sources st
    /\ App.loading st' = false.
Proof.
  intros Hkey Herr. rewrite loadWeatherData_eq.
  rewrite (fetchSpaceWeather_live_fail _ _ _ _ _ Hkey Herr).
  eexists. repeat split.
Qed.

Lemma failed_load_example :
  exists st',
    App.loadWeatherData with_key down tromso loaded_app w0 =
      (Ret tt, st',
       errored (errored w0 "Error fetching space weather:" (ProviderError NetworkError))
         "Failed to load weather data" (ProviderError NetworkError))
    /\ App.rawText st' = App.UNABLE_TO_FETCH
    /\ App.weatherData st' = Scenario.report_value
    /\ App.sources st' = [MOCK_SOURCE]
    /\ App.loading st' = false.
Proof.
  apply (failed_load_keeps_previous_data with_key down tromso loaded_app w0
           (ProviderError NetworkError)); reflexivity.
Defined.

(** X12: a successful load replaces the report wholesale, from one reply:
    the data is what [extractJson] gives for the reply text, the narrative
    is that same text stripped and trimmed, the sources are those of the
    same response; nothing of the previous report remains. *)
Theorem successful_load_replaces_report e p coords st w resp :
  missing (API_KEY e) = false ->
  generateContent p (client e) (weather_request coords) = Ret resp ->
  exists st' w',
    App.loadWeatherData e p coords st w = (Ret tt, st', w')
    /\ extractJson (text_or_empty (text resp)) w = (Ret (App.weatherData st'), w')
    /\ App.rawText st' = narrative (text_or_empty (text resp))
    /\ App.sources st' =
       mapSources (match groundingChunks resp with Some cs => cs | None => [] end)
    /\ App.loading st' = false.
Proof.
  intros Hkey Hresp. rewrite loadWeatherData_eq.
  destruct (fetchSpaceWeather_live_ok e p coords w resp Hkey Hresp)
    as (v & w' & Hv & ->).
  do 2 eexists. split; [reflexivity|]. cbn. repeat split. exact Hv.
Qed.

Lemma successful_load_example :
  exists st' w',
    App.loadWeatherData with_key (answering grounded_reply) tromso loaded_app w0
      = (Ret tt, st', w')
    /\ App.weatherData st' = JNull
    /\ App.rawText st' = js "Quiet night."
    /\ List.length (App.sources st') = 2%nat.
Proof.
  destruct (successful_load_replaces_report with_key (answering grounded_reply)
              tromso loaded_app w0 grounded_reply eq_refl eq_refl)
    as (st' & w' & Hload & Hdata & Hraw & Hsrc & _).
  exists st', w'. split; [exact Hload|].
  split; [now injection Hdata as <- _|].
  split; [exact Hraw|]. now rewrite Hsrc.
Defined.

(** X13: in demo mode every load, at any coordinates and from any state,
    puts the mock report on the dashboard in full: mock data, mock
    narrative, the one simulated source. *)
Theorem demo_load_shows_mock e p coords st w :
  missing (API_KEY e) = true ->
  exists st' w',
    App.loadWeatherData e p coords st w = (Ret tt, st', w')
    /\ App.weatherData st' = MOCK_WEATHER_DATA e
    /\ App.rawText st' = MOCK_summary
    /\ App.sources st' = [MOCK_SOURCE]
    /\ Dashboard.of_app st' =
       Dashboard.Full (MOCK_WEATHER_DATA e) MOCK_summary [MOCK_SOURCE].
Proof.
  intros Hkey. rewrite loadWeatherData_eq.
  unfold fetchSpaceWeather, bind, getAI. rewrite Hkey.
  do 2 eexists. repeat split.
Qed.

Lemma demo_load_example :
  exists st' w',
    App.loadWeatherData no_key down tromso App.initial w0 = (Ret tt, st', w')
    /\ App.weatherData st' = MOCK_WEATHER_DATA no_key
    /\ App.rawText st' = MOCK_summary
    /\ App.sources st' = [MOCK_SOURCE]
    /\ Dashboard.of_app st' =
       Dashboard.Full (MOCK_WEATHER_DATA no_key) MOCK_summary [MOCK_SOURCE].
Proof.
  apply (demo_load_shows_mock no_key down tromso App.initial w0). reflexivity.
Defined.

(** X14: without geolocation support nothing is ever fetched.  Mounting
    records the error only; with no location known a refresh afterwards
    does nothing; the world is untouched and the dashboard shows what it
    showed before (nothing at all, from the initial state). *)
Theorem unsupported_geolocation_never_loads e p st w :
  App.location st = None ->
  exists st',
    App.mount e p App.GeoUnsupported st w = (Ret tt, st', w)
    /\ App.handleRefresh e p st' w = (Ret tt, st', w)
    /\ App.locationError st' = Some (js "Geolocation not supported.")
    /\ Dashboard.of_app st' = Dashboard.of_app st.
Proof.
  intros Hloc. eexists. split; [reflexivity|]. split.
  - unfold App.handleRefresh. cbn [App.location App.setLocationError].
    now rewrite Hloc.
  - split; reflexivity.
Qed.

Lemma unsupported_geolocation_example :
  exists st',
    App.mount with_key down App.GeoUnsupported App.initial w0 = (Ret tt, st', w0)
    /\ App.handleRefresh with_key down st' w0 = (Ret tt, st', w0)
    /\ App.locationError st' = Some (js "Geolocation not supported.")
    /\ Dashboard.of_app st' = Dashboard.Blank.
Proof.
  apply (unsupported_geolocation_never_loads with_key down App.initial w0).
  reflexivity.
Defined.

(** X15: a denied geolocation request behaves as a position fix at the
    default coordinates (64.1265, -21.8174), plus the error notice: same
    outcome, same world, same state but for [locationError]. *)
Theorem denied_geolocation_uses_default e p st w :
  exists o st1 st2 w',
    App.mount e p App.GeoDenied st w = (o, st1, w')
    /\ App.mount e p (App.GeoFix (decimal 641265 4) (decimal (-218174) 4)) st w
       = (o, st2, w')
    /\ st1 = App.setLocationError
               (js "Location access denied. Using default (Reykjavik).") st2
    /\ App.location st1 = Some App.defaultCoords.
Proof.
  unfold App.mount, UI.bind, UI.set. rewrite !loadWeatherData_eq.
  change {| latitude := decimal 641265 4; longitude := decimal (-218174) 4 |}
    with App.defaultCoords.
  destruct (fetchSpaceWeather e p App.defaultCoords w) as [[r|err] w'];
    do 4 eexists; repeat split.
Qed.

(** ** components/Dashboard.tsx *)

(** X16: what the dashboard shows after a failed load.  With no usable
    previous report it shows the apology alone; with a previous report it
    shows that report in full, stale, with the apology as its log. *)
Theorem dashboard_after_failed_load e p coords st w err :
  missing (API_KEY e) = false ->
  generateContent p (client e) (weather_request coords) = Throw err ->
  exists st' w',
    App.loadWeatherData e p coords st w = (Ret tt, st', w')
    /\ (truthy (App.weatherData st) = false ->
        Dashboard.of_app st' = Dashboard.ReportOnly App.UNABLE_TO_FETCH)
    /\ (truthy (App.weatherData st) = true ->
        Dashboard.of_app st' =
        Dashboard.Full (App.weatherData st) App.UNABLE_TO_FETCH (App.sources st)).
Proof.
  intros Hkey Herr. rewrite loadWeatherData_eq.
  rewrite (fetchSpaceWeather_live_fail _ _ _ _ _ Hkey Herr).
  do 2 eexists. split; [reflexivity|].
  unfold Dashboard.of_app, Dashboard.render. cbn.
  split; intros ->; reflexivity.
Qed.

Lemma dashboard_after_failed_load_example :
  (exists st' w',
      App.loadWeatherData with_key down tromso App.initial w0 = (Ret tt, st', w')
      /\ Dashboard.of_app st' = Dashboard.ReportOnly App.UNABLE_TO_FETCH)
  /\ (exists st' w',
        App.loadWeatherData with_key down tromso loaded_app w0 = (Ret tt, st', w')
        /\ Dashboard.of_app st' =
           Dashboard.Full Scenario.report_value App.UNABLE_TO_FETCH [MOCK_SOURCE]).
Proof.
  split.
  - destruct (dashboard_after_failed_load with_key down tromso App.initial w0
                (ProviderError NetworkError) eq_refl eq_refl)
      as (st' & w' & Hload & Hnone & _).
    exists st', w'. split; [exact Hload|exact (Hnone eq_refl)].
  - destruct (dashboard_after_failed_load with_key down tromso loaded_app w0
                (ProviderError NetworkError) eq_refl eq_refl)
      as (st' & w' & Hload & _ & Hstale).
    exists st', w'. split; [exact Hload|exact (Hstale eq_refl)].
Defined.

(** X17: decoded data that is falsy counts as no data.  When the block of
    the reply decodes to [0], [false], the empty string or [null] and the
    narrative is not empty, the dashboard shows the narrative alone, as if
    no block had been found. *)
Theorem falsy_data_is_shown_as_no_data e p coords st w resp pre content post v :
  missing (API_KEY e) = false ->
  generateContent p (client e) (weather_request coords) = Ret resp ->
  text resp = Some (pre ++ tagged_block content ++ post) ->
  ends_first tagged_open pre ->
  JSON_parse content = Ret v ->
  truthy v = false ->
  nonempty (narrative (pre ++ tagged_block content ++ post)) = true ->
  exists st' w',
    App.loadWeatherData e p coords st w = (Ret tt, st', w')
    /\ App.weatherData st' = v
    /\ Dashboard.of_app st' =
       Dashboard.ReportOnly (narrative (pre ++ tagged_block content ++ post)).
Proof.
  intros Hkey Hresp Htext Hpre Hv Hfalsy Hlog. rewrite loadWeatherData_eq.
  destruct (fetchSpaceWeather_live_ok e p coords w resp Hkey Hresp)
    as (v' & w' & Hv' & ->).
  rewrite Htext in *. cbn [text_or_empty] in *.
  pose proof (valid_content_ends_first _ _ Hv) as Hc.
  rewrite (extractJson_located _ _ w (jsonMatch_first_tagged _ _ post Hpre Hc)),
    (decode_block_ok _ _ _ Hv) in Hv'.
  injection Hv' as <- <-.
  do 2 eexists. split; [reflexivity|]. split; [reflexivity|].
  unfold Dashboard.of_app, Dashboard.render.
  cbn [App.loading App.weatherData App.rawText App.sources App.setLoading
       App.setSources App.setRawText App.setWeatherData data rawText sources].
  now rewrite Hfalsy, Hlog.
Qed.

Lemma falsy_data_example :
  exists st' w',
    App.loadWeatherData with_key (answering zero_reply) tromso App.initial w0
      = (Ret tt, st', w')
    /\ App.weatherData st' = int 0
    /\ Dashboard.of_app st' = Dashboard.ReportOnly (js "Nothing tonight.").
Proof.
  apply (falsy_data_is_shown_as_no_data with_key (answering zero_reply) tromso
           App.initial w0 zero_reply (js "Nothing tonight.") (js "0") [] (int 0));
    reflexivity.
Defined.

(** X18: the flare test of the space-weather map is the stricter one.  For
    every decoded report, whenever the map draws the flare the dashboard
    shows the flare alert. *)
Theorem isFlare_implies_alert weather :
  Dashboard.isFlare weather = true -> Dashboard.isSignificantFlare weather = true.
Proof.
  unfold Dashboard.isFlare, Dashboard.isSignificantFlare. cbn zeta.
  destruct (Dashboard.prop "solarFlare" (Some weather)) as [[| | | | |ms]|];
    cbn; try discriminate.
  intros H. now apply andb_true_iff in H as [_ H].
Qed.

Lemma isFlare_implies_alert_example :
  Dashboard.isFlare flaring = true /\ Dashboard.isSignificantFlare flaring = true.
Proof.
  split; [reflexivity|]. apply (isFlare_implies_alert flaring). reflexivity.
Defined.

(** The converse fails: a flare entry without a class raises the alert on
    the dashboard while the map stays calm. *)
Example alert_without_map_flare :
  Dashboard.isSignificantFlare classless = true /\ Dashboard.isFlare classless = false.
Proof. split; reflexivity. Qed.

Section ColourFacts.

Lemma Qle_bool_mono_r a x y : Qle x y -> Qle_bool a x = true -> Qle_bool a y = true.
Proof.
  intros Hxy H. apply Qle_bool_iff. apply Qle_bool_iff in H.
  eapply Qle_trans; eauto.
Qed.

Lemma Qle_bool_mono_l a x y : Qle x y -> Qle_bool y a = true -> Qle_bool x a = true.
Proof.
  intros Hxy H. apply Qle_bool_iff. apply Qle_bool_iff in H.
  eapply Qle_trans; eauto.
Qed.

Lemma Qle_bool_false a b : Qle_bool a b = false <-> Qlt b a.
Proof.
  split.
  - intros E. apply Qnot_le_lt. intros H. apply Qle_bool_iff in H. congruence.
  - intros H. destruct (Qle_bool a b) eqn:E; [|reflexivity].
    apply Qle_bool_iff in E. now apply Qlt_not_le in H.
Qed.

Lemma ringColor_rank_mono s1 s2 :
  Qle s1 s2 ->
  (Props.rank (Dashboard.ringColor s1) <= Props.rank (Dashboard.ringColor s2))%nat.
Proof.
  intros H. unfold Dashboard.ringColor. cbn zeta.
  destruct (Qle_bool s2 80) eqn:E80.
  - rewrite (Qle_bool_mono_l _ _ _ H E80). cbn.
    destruct (Qle_bool s2 60) eqn:E60.
    + rewrite (Qle_bool_mono_l _ _ _ H E60). cbn. lia.
    + destruct (Qle_bool s1 60); cbn; lia.
  - cbn. destruct (Qle_bool s1 80), (Qle_bool s1 60); cbn; lia.
Qed.

Lemma auroraColor_rank_mono k1 k2 :
  Qle k1 k2 ->
  (Props.aurora_rank (Dashboard.auroraColor k1)
   <= Props.aurora_rank (Dashboard.auroraColor k2))%nat.
Proof.
  intros H. unfold Dashboard.auroraColor. cbn zeta.
  destruct (Qle_bool 7 k1) eqn:E7.
  - rewrite (Qle_bool_mono_r _ _ _ H E7). cbn. lia.
  - destruct (Qle_bool 5 k1) eqn:E5.
    + rewrite (Qle_bool_mono_r _ _ _ H E5). destruct (Qle_bool 7 k2); cbn; lia.
    + destruct (Qle_bool 7 k2), (Qle_bool 5 k2); cbn; lia.
Qed.

End ColourFacts.

(** X19: the thresholds of the probability ring.  The ring is teal exactly
    for a score of at most 60, purple exactly above 60 and up to 80, red
    exactly above 80; so it never cools down as the score grows. *)
Theorem ringColor_thresholds score :
  (Dashboard.ringColor score = Dashboard.Teal <-> Qle score 60)
  /\ (Dashboard.ringColor score = Dashboard.Purple
      <-> Qlt 60 score /\ Qle score 80)
  /\ (Dashboard.ringColor score = Dashboard.Red <-> Qlt 80 score)
  /\ (forall higher, Qle score higher ->
        (Props.rank (Dashboard.ringColor score)
         <= Props.rank (Dashboard.ringColor higher))%nat).
Proof.
  assert (H68 : Qle 60 80) by discriminate.
  split; [|split; [|split]]; [| | |apply ringColor_rank_mono];
    unfold Dashboard.ringColor; cbn zeta;
    destruct (Qle_bool score 60) eqn:E60, (Qle_bool score 80) eqn:E80;
    cbn [negb];
    try apply Qle_bool_iff in E60; try apply Qle_bool_iff in E80;
    try apply Qle_bool_false in E60; try apply Qle_bool_false in E80.
  all: split; try discriminate; try reflexivity; try tauto.
  all: try (intros _; exfalso;
            apply (Qlt_not_le _ _ E80); eapply Qle_trans; eassumption).
  all: try (intros H; exfalso; first
            [ apply (Qlt_not_le _ _ E60 H)
            | apply (Qlt_not_le _ _ E80 H)
            | apply (Qlt_not_le _ _ H E80)
            | apply (Qlt_not_le _ _ H E60)
            | apply (Qlt_not_le _ _ E80 (proj2 H))
            | apply (Qlt_not_le _ _ (proj1 H) E60) ]).
Qed.

Lemma ringColor_thresholds_example :
  Dashboard.ringColor 60 = Dashboard.Teal
  /\ Dashboard.ringColor 78 = Dashboard.Purple
  /\ Dashboard.ringColor 80 = Dashboard.Purple
  /\ Dashboard.ringColor (decimal 801 1) = Dashboard.Red.
Proof.
  split; [|split; [|split]].
  - apply (proj1 (ringColor_thresholds 60)). discriminate.
  - apply (proj1 (proj2 (ringColor_thresholds 78))).
    split; [reflexivity|discriminate].
  - apply (proj1 (proj2 (ringColor_thresholds 80))).
    split; [reflexivity|discriminate].
  - apply (proj1 (proj2 (proj2 (ringColor_thresholds (decimal 801 1))))).
    reflexivity.
Defined.

(** X20: the thresholds of the map's aurora.  It is green exactly for a Kp
    below 5, violet exactly from 5 and below 7, crimson exactly from 7; so
    it never cools down as Kp grows. *)
Theorem auroraColor_thresholds kp :
  (Dashboard.auroraColor kp = Dashboard.Green <-> Qlt kp 5)
  /\ (Dashboard.auroraColor kp = Dashboard.Violet
      <-> Qle 5 kp /\ Qlt kp 7)
  /\ (Dashboard.auroraColor kp = Dashboard.Crimson <-> Qle 7 kp)
  /\ (forall higher, Qle kp higher ->
        (Props.aurora_rank (Dashboard.auroraColor kp)
         <= Props.aurora_rank (Dashboard.auroraColor higher))%nat).
Proof.
  assert (H57 : Qle 5 7) by discriminate.
  split; [|split; [|split]]; [| | |apply auroraColor_rank_mono];
    unfold Dashboard.auroraColor; cbn zeta;
    destruct (Qle_bool 5 kp) eqn:E5, (Qle_bool 7 kp) eqn:E7;
    try apply Qle_bool_iff in E5; try apply Qle_bool_iff in E7;
    try apply Qle_bool_false in E5; try apply Qle_bool_false in E7.
  all: split; try discriminate; try reflexivity; try tauto.
  all: try (intros _; exfalso;
            apply (Qlt_not_le _ _ E5); eapply Qle_trans; eassumption).
  all: try (intros H; exfalso; first
            [ apply (Qlt_not_le _ _ E5 H)
            | apply (Qlt_not_le _ _ E7 H)
            | apply (Qlt_not_le _ _ H E5)
            | apply (Qlt_not_le _ _ H E7)
            | apply (Qlt_not_le _ _ (proj2 H) E7)
            | apply (Qlt_not_le _ _ E5 (proj1 H)) ]).
Qed.

Lemma auroraColor_thresholds_example :
  Dashboard.auroraColor (decimal 499 2) = Dashboard.Green
  /\ Dashboard.auroraColor 5 = Dashboard.Violet
  /\ Dashboard.auroraColor (decimal 533 2) = Dashboard.Violet
  /\ Dashboard.auroraColor 7 = Dashboard.Crimson.
Proof.
  split; [|split; [|split]].
  - apply (proj1 (auroraColor_thresholds (decimal 499 2))). reflexivity.
  - apply (proj1 (proj2 (auroraColor_thresholds 5))).
    split; [discriminate|reflexivity].
  - apply (proj1 (proj2 (auroraColor_thresholds (decimal 533 2)))).
    split; [discriminate|reflexivity].
  - apply (proj1 (proj2 (proj2 (auroraColor_thresholds 7)))). discriminate.
Defined.

(** ** components/ChatGuardian.tsx *)

Section ChatFacts.

(** [handleSend] on input that is not blank, while no send is in flight, in
    terms of what the send settles to. *)
Lemma handleSend_eq p t s w :
  nonempty (trim (ChatGuardian.input s)) = true ->
  ChatGuardian.loading s = false ->
  ChatGuardian.handleSend p t s w =
  let userMsg :=
    {| ChatGuardian.id := ChatGuardian.Number_toString (ChatGuardian.user_id_ms t);
       ChatGuardian.role := User;
       ChatGuardian.text := ChatGuardian.input s;
       ChatGuardian.timestamp := ChatGuardian.user_ts t |} in
  let answer txt :=
    {| ChatGuardian.id := ChatGuardian.Number_toString (ChatGuardian.reply_id_ms t + 1);
       ChatGuardian.role := Model;
       ChatGuardian.text := txt;
       ChatGuardian.timestamp := ChatGuardian.reply_ts t |} in
  let after txt :=
    {| ChatGuardian.session := ChatGuardian.session s;
       ChatGuardian.messages := ChatGuardian.messages s ++ [userMsg; answer txt];
       ChatGuardian.input := [];
       ChatGuardian.loading := false |} in
  match sendMessage p (ChatGuardian.session s) (ChatGuardian.input s) w with
  | (Ret r, w') => (Ret tt, after (reply_text r), w')
  | (Throw err, w') =>
      (Ret tt, after ChatGuardian.COMM_LINK_DISRUPTED, errored w' "" err)
  end.
Proof.
  intros Hin Hload. unfold ChatGuardian.handleSend. rewrite Hin, Hload.
  cbn [negb orb].
  unfold UI.bind, UI.try_finally, UI.try_catch, UI.call, UI.set.
  cbn [ChatGuardian.text ChatGuardian.session ChatGuardian.pushMessage
       ChatGuardian.setInput ChatGuardian.setLoading].
  destruct (sendMessage p (ChatGuardian.session s) (ChatGuardian.input s) w)
    as [[r|err] w'];
    unfold ChatGuardian.setLoading, ChatGuardian.setInput,
      ChatGuardian.pushMessage, console_error, log, errored;
    cbn [ChatGuardian.session ChatGuardian.messages ChatGuardian.input
         ChatGuardian.loading];
    rewrite <- app_assoc; reflexivity.
Qed.

End ChatFacts.

(** X21: blank input, or a send still in flight, makes [handleSend] a
    no-op: no message is added, nothing is sent, nothing is logged. *)
Theorem handleSend_blank_is_noop p t s w :
  trim (ChatGuardian.input s) = [] \/ ChatGuardian.loading s = true ->
  ChatGuardian.handleSend p t s w = (Ret tt, s, w).
Proof.
  intros [H | H]; unfold ChatGuardian.handleSend; rewrite H;
    [|rewrite orb_true_r]; reflexivity.
Qed.

Lemma handleSend_blank_example :
  ChatGuardian.handleSend down clock idle_chat w0 = (Ret tt, idle_chat, w0).
Proof.
  apply (handleSend_blank_is_noop down clock idle_chat w0). left. reflexivity.
Defined.

(** X22: every other send adds exactly one exchange.  The transcript keeps
    what it had and gains the user's message, with the input text verbatim
    (not trimmed), followed by one message of the model; the input is
    cleared, [loading] ends false, and no exception escapes, whatever the
    session and the provider do. *)
Theorem handleSend_appends_one_exchange p t s w :
  nonempty (trim (ChatGuardian.input s)) = true ->
  ChatGuardian.loading s = false ->
  exists user answer st' w',
    ChatGuardian.handleSend p t s w = (Ret tt, st', w')
    /\ ChatGuardian.messages st' = ChatGuardian.messages s ++ [user; answer]
    /\ ChatGuardian.role user = User
    /\ ChatGuardian.text user = ChatGuardian.input s
    /\ ChatGuardian.role answer = Model
    /\ ChatGuardian.input st' = []
    /\ ChatGuardian.loading st' = false
    /\ ChatGuardian.session st' = ChatGuardian.session s.
Proof.
  intros Hin Hload. rewrite (handleSend_eq _ _ _ _ Hin Hload). cbn zeta.
  destruct (sendMessage p (ChatGuardian.session s) (ChatGuardian.input s) w)
    as [[r|err] w']; do 4 eexists; repeat split.
Qed.

Lemma handleSend_exchange_example :
  exists user answer st' w',
    ChatGuardian.handleSend down clock asking w0 = (Ret tt, st', w')
    /\ ChatGuardian.messages st' = ChatGuardian.messages asking ++ [user; answer]
    /\ ChatGuardian.role user = User
    /\ ChatGuardian.text user = js " Will I see aurora? "
    /\ ChatGuardian.role answer = Model
    /\ ChatGuardian.input st' = []
    /\ ChatGuardian.loading st' = false
    /\ ChatGuardian.session st' = DemoChat.
Proof.
  apply (handleSend_appends_one_exchange down clock asking w0); reflexivity.
Defined.

(** X23: a conversation in demo mode.  After mounting without a credential,
    every message that is not blank is answered with the fixed demo text;
    the provider is never involved and the world stays as mounting left
    it. *)
Theorem demo_conversation e p now t w typed :
  missing (API_KEY e) = true ->
  nonempty (trim typed) = true ->
  exists s0 w1 user st',
    ChatGuardian.mount e now w = (Ret s0, w1)
    /\ ChatGuardian.messages s0 =
       [{| ChatGuardian.id := js "1"; ChatGuardian.role := Model;
           ChatGuardian.text := ChatGuardian.GREETING;
           ChatGuardian.timestamp := now |}]
    /\ ChatGuardian.handleSend p t (ChatGuardian.setInput typed s0) w1
       = (Ret tt, st', w1)
    /\ ChatGuardian.messages st' =
       ChatGuardian.messages s0 ++
       [user;
        {| ChatGuardian.id :=
             ChatGuardian.Number_toString (ChatGuardian.reply_id_ms t + 1);
           ChatGuardian.role := Model;
           ChatGuardian.text := DEMO_CHAT_TEXT;
           ChatGuardian.timestamp := ChatGuardian.reply_ts t |}].
Proof.
  intros Hkey Htyped.
  unfold ChatGuardian.mount, createChatSession, bind, getAI. rewrite Hkey.
  do 4 eexists. split; [reflexivity|]. split; [reflexivity|].
  rewrite handleSend_eq by (cbn; auto). cbn. split; reflexivity.
Qed.

Lemma demo_conversation_example :
  exists s0 w1 user st',
    ChatGuardian.mount no_key 900 w0 = (Ret s0, w1)
    /\ ChatGuardian.messages s0 =
       [{| ChatGuardian.id := js "1"; ChatGuardian.role := Model;
           ChatGuardian.text := ChatGuardian.GREETING;
           ChatGuardian.timestamp := 900 |}]
    /\ ChatGuardian.handleSend down clock (ChatGuardian.setInput (js "hello") s0) w1
       = (Ret tt, st', w1)
    /\ ChatGuardian.messages st' =
       ChatGuardian.messages s0 ++
       [user;
        {| ChatGuardian.id := js "1251";
           ChatGuardian.role := Model;
           ChatGuardian.text := DEMO_CHAT_TEXT;
           ChatGuardian.timestamp := 1251 |}].
Proof.
  apply (demo_conversation no_key down 900 clock w0 (js "hello")); reflexivity.
Defined.

(** X24: a failed send is a per-turn failure.  Whenever the send of the
    session is rejected, [handleSend] catches the error: the transcript
    gains the user's message and the fixed "Comm link disrupted" reply, the
    error is logged on top of whatever the send did to the world, the
    session is kept, [loading] ends false and no exception escapes. *)
Theorem failed_send_is_recoverable p t s w err w1 :
  nonempty (trim (ChatGuardian.input s)) = true ->
  ChatGuardian.loading s = false ->
  sendMessage p (ChatGuardian.session s) (ChatGuardian.input s) w = (Throw err, w1) ->
  exists user st',
    ChatGuardian.handleSend p t s w = (Ret tt, st', errored w1 "" err)
    /\ ChatGuardian.messages st' =
       ChatGuardian.messages s ++
       [user;
        {| ChatGuardian.id :=
             ChatGuardian.Number_toString (ChatGuardian.reply_id_ms t + 1);
           ChatGuardian.role := Model;
           ChatGuardian.text := ChatGuardian.COMM_LINK_DISRUPTED;
           ChatGuardian.timestamp := ChatGuardian.reply_ts t |}]
    /\ ChatGuardian.text user = ChatGuardian.input s
    /\ ChatGuardian.input st' = []
    /\ ChatGuardian.session st' = ChatGuardian.session s
    /\ ChatGuardian.loading st' = false.
Proof.
  intros Hin Hload Hsend. rewrite (handleSend_eq _ _ _ _ Hin Hload), Hsend.
  cbn zeta. do 2 eexists. repeat split.
Qed.

Lemma failed_send_example :
  exists w1 user st',
    sendMessage down (ChatGuardian.session live_chat) (js "ping") w0
      = (Throw (ProviderError NetworkError), w1)
    /\ ChatGuardian.handleSend down clock live_chat w0
       = (Ret tt, st', errored w1 "" (ProviderError NetworkError))
    /\ ChatGuardian.messages st' =
       ChatGuardian.messages live_chat ++
       [user;
        {| ChatGuardian.id := js "1251";
           ChatGuardian.role := Model;
           ChatGuardian.text := ChatGuardian.COMM_LINK_DISRUPTED;
           ChatGuardian.timestamp := 1251 |}]
    /\ ChatGuardian.text user = js "ping"
    /\ ChatGuardian.input st' = []
    /\ ChatGuardian.session st' = ChatGuardian.session live_chat
    /\ ChatGuardian.loading st' = false.
Proof.
  eexists.
  destruct (failed_send_is_recoverable down clock live_chat w0
              (ProviderError NetworkError) _ eq_refl eq_refl eq_refl)
    as (user & st' & H).
  exists user, st'. split; [reflexivity|exact H].
Defined.

(** ** components/PhotoGuide.tsx *)

Section DataUrlFacts.

Import PhotoGuide.

Lemma match_start_lits a r s :
  match_start (map Lit a ++ r) (a ++ s) = match_start r s.
Proof.
  induction a as [|x a IH]; [reflexivity|].
  cbn [map app match_start]. now rewrite N.eqb_refl.
Qed.

Lemma more_letters_eq k s :
  more_letters k s =
  match
    match s with
    | d :: s' => if is_lower d then more_letters k s' else None
    | [] => None
    end
  with
  | Some rest => Some rest
  | None => k s
  end.
Proof. destruct s; reflexivity. Qed.

(** The run of letters stops at the first character that is no letter, when
    the rest of the pattern fits there. *)
Lemma more_letters_stop k letters c s rest :
  forallb is_lower letters = true ->
  is_lower c = false ->
  k (c :: s) = Some rest ->
  more_letters k (letters ++ c :: s) = Some rest.
Proof.
  intros Hl Hc Hk. induction letters as [|d ds IH]; cbn [app];
    rewrite more_letters_eq.
  - now rewrite Hc.
  - cbn [forallb] in Hl. apply andb_true_iff in Hl as [Hd Hds].
    now rewrite Hd, (IH Hds).
Qed.

(** Giving letters back does not help when the rest of the pattern cannot
    start with a letter nor with the character that ended the run. *)
Lemma more_letters_fail k letters c s :
  forallb is_lower letters = true ->
  is_lower c = false ->
  (forall x t, is_lower x = true \/ x = c -> k (x :: t) = None) ->
  more_letters k (letters ++ c :: s) = None.
Proof.
  intros Hl Hc Hk. induction letters as [|d ds IH]; cbn [app];
    rewrite more_letters_eq.
  - rewrite Hc. apply Hk. now right.
  - cbn [forallb] in Hl. apply andb_true_iff in Hl as [Hd Hds].
    rewrite Hd, (IH Hds). apply Hk. now left.
Qed.

Lemma more_letters_suffix k s rest :
  (forall t r, k t = Some r -> exists pre, t = pre ++ r) ->
  more_letters k s = Some rest -> exists pre, s = pre ++ rest.
Proof.
  intros Hk. induction s as [|d s IH]; rewrite more_letters_eq.
  - apply Hk.
  - destruct (is_lower d); [|apply Hk].
    destruct (more_letters k s) as [r|] eqn:E; [|apply Hk].
    intros [= <-]. destruct (IH eq_refl) as [pre ->]. now exists (d :: pre).
Qed.

Lemma match_start_suffix r s rest :
  match_start r s = Some rest -> exists pre, s = pre ++ rest.
Proof.
  revert s rest; induction r as [|[c|] r IH]; intros s rest; cbn [match_start].
  - intros [= <-]. now exists [].
  - destruct s as [|c' s]; [discriminate|].
    destruct (c =? c'); [|discriminate].
    intros H. destruct (IH _ _ H) as [pre ->]. now exists (c' :: pre).
  - destruct s as [|c s]; [discriminate|].
    destruct (is_lower c); [|discriminate].
    intros H. apply (more_letters_suffix _ _ _ IH) in H as [pre ->].
    now exists (c :: pre).
Qed.

Lemma base64_marker_needs_semicolon x t :
  x <> 59 -> match_start (map Lit (js ";base64,")) (x :: t) = None.
Proof.
  intros Hx.
  change (match_start (Lit 59 :: map Lit (js "base64,")) (x :: t) = None).
  cbn [match_start]. destruct (N.eqb_spec 59 x); [congruence|reflexivity].
Qed.

Lemma lower_is_not_semicolon x : is_lower x = true -> x <> 59.
Proof. intros H ->. discriminate H. Qed.

End DataUrlFacts.

Section UploadFacts.

Lemma analyzeSkyPhoto_returns e p image device w :
  exists v w', analyzeSkyPhoto e p image device w = (Ret v, w').
Proof.
  unfold analyzeSkyPhoto, bind, getAI.
  destruct (missing (API_KEY e)); [do 2 eexists; reflexivity|].
  cbn [Eff.ret]. unfold try_catch, bind, lift.
  destruct (generateContent p (client e) (photo_request image device))
    as [resp|err]; [|do 2 eexists; reflexivity].
  destruct (JSON_parse (text_or_empty (text resp))) as [v|perr];
    [do 2 eexists; reflexivity|].
  destruct (extractJson_returns (text_or_empty (text resp)) w) as (v & w' & ->).
  do 2 eexists; reflexivity.
Qed.

End UploadFacts.

(** X25: the data-URL prefix is removed.  For every media subtype made of
    one or more lower-case letters and every payload, what is sent to the
    service is the payload alone. *)
Theorem stripDataUrl_payload kind payload :
  kind <> [] ->
  forallb PhotoGuide.is_lower kind = true ->
  PhotoGuide.stripDataUrl (js "data:image/" ++ kind ++ js ";base64," ++ payload)
  = payload.
Proof.
  intros Hne Hl. unfold PhotoGuide.stripDataUrl, PhotoGuide.DATA_URL_PREFIX.
  rewrite match_start_lits.
  destruct kind as [|k ks]; [congruence|].
  cbn [forallb] in Hl. apply andb_true_iff in Hl as [Hk Hks].
  cbn [app PhotoGuide.match_start]. rewrite Hk.
  change (js ";base64," ++ payload) with (59 :: js "base64," ++ payload).
  rewrite (more_letters_stop _ ks 59 (js "base64," ++ payload) payload);
    auto.
Qed.

Lemma stripDataUrl_payload_example :
  PhotoGuide.stripDataUrl (js "data:image/jpeg;base64,/9j/4AAQ") = js "/9j/4AAQ".
Proof.
  apply (stripDataUrl_payload (js "jpeg") (js "/9j/4AAQ")); [discriminate|reflexivity].
Defined.

(** X26: whatever the reader produced, what is sent is a suffix of it:
    stripping removes text at the front only and never alters the rest. *)
Theorem stripDataUrl_is_suffix result :
  exists front, result = front ++ PhotoGuide.stripDataUrl result.
Proof.
  unfold PhotoGuide.stripDataUrl.
  destruct (PhotoGuide.match_start PhotoGuide.DATA_URL_PREFIX result) as [rest|] eqn:E.
  - now apply match_start_suffix in E.
  - now exists [].
Qed.

(** X27: a media subtype with a character that is no lower-case letter
    (as in [svg+xml] or [x-icon]) is not recognised: the data URL is sent
    to the service whole, prefix included. *)
Theorem stripDataUrl_other_subtype letters c rest :
  forallb PhotoGuide.is_lower letters = true ->
  PhotoGuide.is_lower c = false ->
  c <> 59 ->
  PhotoGuide.stripDataUrl (js "data:image/" ++ letters ++ c :: rest)
  = js "data:image/" ++ letters ++ c :: rest.
Proof.
  intros Hl Hc Hsemi. unfold PhotoGuide.stripDataUrl, PhotoGuide.DATA_URL_PREFIX.
  rewrite match_start_lits.
  destruct letters as [|k ks]; cbn [app PhotoGuide.match_start].
  - now rewrite Hc.
  - cbn [forallb] in Hl. apply andb_true_iff in Hl as [Hk Hks]. rewrite Hk.
    rewrite (more_letters_fail _ ks c rest); auto.
    intros x t [Hx | ->]; apply base64_marker_needs_semicolon; auto.
    now apply lower_is_not_semicolon.
Qed.

Lemma stripDataUrl_other_subtype_example :
  PhotoGuide.stripDataUrl (js "data:image/svg+xml;base64,PHN2Zz4=")
  = js "data:image/svg+xml;base64,PHN2Zz4=".
Proof.
  apply (stripDataUrl_other_subtype (js "svg") 43 (js "xml;base64,PHN2Zz4="));
    [reflexivity|reflexivity|discriminate].
Defined.

(** X28: the three outcomes of an upload.  With no file chosen nothing
    happens.  With a file whose read produced a data URL, the handler and
    its callback end without an exception, [loading] ends false and
    [analysis] holds what [analyzeSkyPhoto] resolved to for the stripped
    payload and the selected device ([null] included).  With a file whose
    read failed, [reader.result] is null and the callback throws a
    [TypeError] before its [try] is entered: the service is not called,
    nothing is logged, the analysis stays cleared and [loading] stays
    true. *)
Theorem handleFileUpload_outcomes e p s w :
  PhotoGuide.handleFileUpload e p PhotoGuide.NoFile s w = (Ret tt, s, w)
  /\ (forall result,
       exists v w',
         analyzeSkyPhoto e p (PhotoGuide.stripDataUrl result) (PhotoGuide.device s) w
           = (Ret v, w')
         /\ PhotoGuide.handleFileUpload e p (PhotoGuide.Loaded result) s w =
            (Ret tt,
             {| PhotoGuide.device := PhotoGuide.device s;
                PhotoGuide.analysis := v;
                PhotoGuide.loading := false |}, w'))
  /\ PhotoGuide.handleFileUpload e p PhotoGuide.ReadError s w =
     (Throw TypeError,
      {| PhotoGuide.device := PhotoGuide.device s;
         PhotoGuide.analysis := JNull;
         PhotoGuide.loading := true |}, w).
Proof.
  split; [reflexivity|]. split; [|reflexivity]. intros result.
  destruct (analyzeSkyPhoto_returns e p (PhotoGuide.stripDataUrl result)
              (PhotoGuide.device s) w) as (v & w' & Hv).
  exists v, w'. split; [exact Hv|].
  unfold PhotoGuide.handleFileUpload, PhotoGuide.onloadend,
    PhotoGuide.base64_of, UI.bind, UI.ret, UI.try_finally, UI.try_catch,
    UI.call, UI.set.
  cbn [PhotoGuide.device PhotoGuide.setAnalysis PhotoGuide.setLoading].
  now rewrite Hv.
Qed.

Lemma failed_read_example :
  PhotoGuide.handleFileUpload with_key down PhotoGuide.ReadError
    {| PhotoGuide.device := js "Smartphone";
       PhotoGuide.analysis := MOCK_PHOTO_ANALYSIS;
       PhotoGuide.loading := false |} w0
  = (Throw TypeError,
     {| PhotoGuide.device := js "Smartphone";
        PhotoGuide.analysis := JNull;
        PhotoGuide.loading := true |}, w0).
Proof.
  exact (proj2 (proj2 (handleFileUpload_outcomes with_key down
           {| PhotoGuide.device := js "Smartphone";
              PhotoGuide.analysis := MOCK_PHOTO_ANALYSIS;
              PhotoGuide.loading := false |} w0))).
Defined.

(** X29: an upload whose analysis fails clears the previous analysis.  In
    live mode, when the file was read and the provider call is rejected, the earlier analysis is
    gone ([null]) and the failure is logged by the service; the component's
    own [catch] is not reached. *)
Theorem failed_upload_clears_analysis e p result s w err :
  missing (API_KEY e) = false ->
  generateContent p (client e)
    (photo_request (PhotoGuide.stripDataUrl result) (PhotoGuide.device s))
    = Throw err ->
  PhotoGuide.handleFileUpload e p (PhotoGuide.Loaded result) s w =
  (Ret tt,
   {| PhotoGuide.device := PhotoGuide.device s;
      PhotoGuide.analysis := JNull;
      PhotoGuide.loading := false |},
   errored w "Error analyzing photo:" err).
Proof.
  intros Hkey Herr.
  unfold PhotoGuide.handleFileUpload, PhotoGuide.onloadend,
    PhotoGuide.base64_of, UI.bind, UI.ret, UI.try_finally, UI.try_catch,
    UI.call, UI.set.
  cbn [PhotoGuide.device PhotoGuide.setAnalysis PhotoGuide.setLoading].
  unfold analyzeSkyPhoto, bind. rewrite (getAI_live _ _ Hkey).
  unfold try_catch, bind, lift. now rewrite Herr.
Qed.

Lemma failed_upload_example :
  PhotoGuide.handleFileUpload with_key down
    (PhotoGuide.Loaded (js "data:image/png;base64,iVBORw0KGgo="))
    {| PhotoGuide.device := js "DSLR/Mirrorless";
       PhotoGuide.analysis := MOCK_PHOTO_ANALYSIS;
       PhotoGuide.loading := false |} w0
  = (Ret tt,
     {| PhotoGuide.device := js "DSLR/Mirrorless";
        PhotoGuide.analysis := JNull;
        PhotoGuide.loading := false |},
     errored w0 "Error analyzing photo:" (ProviderError NetworkError)).
Proof.
  apply (failed_upload_clears_analysis with_key down
           (js "data:image/png;base64,iVBORw0KGgo=")
           {| PhotoGuide.device := js "DSLR/Mirrorless";
              PhotoGuide.analysis := MOCK_PHOTO_ANALYSIS;
              PhotoGuide.loading := false |} w0 (ProviderError NetworkError));
    reflexivity.
Defined.
